(** * MattyIce: the Monte Carlo capital-path simulator

    A shallow embedding of [mmm_complete_backtest.py] ([run_simulation] and
    the scenario loop of [main]) and of the trade loop of
    [mmm_option_selling_backtest.py] ([simulate_option_sell]).

    The scripts compute with Python floats.  The arithmetic is kept behind
    the interface [Arith], with three instances:
    - [binary64_arith], IEEE binary64 (what the scripts run on), used to
      evaluate the code on concrete inputs;
    - [exact_arith], the rationals [Qc], in which the algebraic properties of
      the simulator are proved;
    - [rounded_arith rnd], the rationals with every result rounded by [rnd],
      in which the order properties are proved for every monotone rounding.
    Properties that need no arithmetic law are proved for every instance. *)

From Stdlib Require Import String.
From Stdlib Require Import ZArith QArith Qcanon Qpower Qround Lqa.
From Stdlib Require Import List Sorted Bool Lia Arith.
From Stdlib Require Import Floats Uint63.
Import ListNotations.

Set Implicit Arguments.
Set Warnings "-inexact-float".
Open Scope nat_scope.

(** ** Arithmetic interface *)

(** The operations the scripts use on numbers.  [lit q] is the value of a
    numeric literal written [q] in the source ([0.3] is [lit (3 # 10)],
    [50000] is [lit (50000 # 1)]). *)
Class Arith (F : Type) : Type := {
  add : F -> F -> F;
  sub : F -> F -> F;
  mul : F -> F -> F;
  div : F -> F -> F;
  opp : F -> F;
  ltb : F -> F -> bool;
  leb : F -> F -> bool;
  lit : Q -> F
}.

(** [np.sqrt], only available on floats. *)
Class Sqrt (F : Type) : Type := { sqrt : F -> F }.

(** *** IEEE binary64 *)

Definition float_of_Z (z : Z) : float :=
  match z with
  | Z0 => PrimFloat.zero
  | Zpos _ => PrimFloat.of_uint63 (Uint63.of_Z z)
  | Zneg p => PrimFloat.opp (PrimFloat.of_uint63 (Uint63.of_Z (Zpos p)))
  end.

(** A decimal literal is read as the binary64 nearest to it: numerator and
    denominator of the literals that occur are below [2^53], so both convert
    exactly and the one division rounds once, to the nearest. *)
Definition float_lit (q : Q) : float :=
  PrimFloat.div (float_of_Z (Qnum q)) (float_of_Z (Zpos (Qden q))).

#[export] Instance binary64_arith : Arith float := {|
  add := PrimFloat.add;
  sub := PrimFloat.sub;
  mul := PrimFloat.mul;
  div := PrimFloat.div;
  opp := PrimFloat.opp;
  ltb := PrimFloat.ltb;
  leb := PrimFloat.leb;
  lit := float_lit
|}.

#[export] Instance binary64_sqrt : Sqrt float := {| sqrt := PrimFloat.sqrt |}.

(** Refutes an equation [H] between two binary64 values that [PrimFloat.eqb]
    tells apart. *)
Ltac float_discriminate H :=
  match type of H with
  | ?a = ?b =>
      apply (f_equal (fun x => PrimFloat.eqb x b)) in H;
      vm_compute in H; discriminate H
  end.

(** *** Exact rationals *)

Definition Qc_ltb (x y : Qc) : bool :=
  match (x ?= y)%Qc with Lt => true | _ => false end.

Definition Qc_leb (x y : Qc) : bool :=
  match (x ?= y)%Qc with Gt => false | _ => true end.

#[export] Instance exact_arith : Arith Qc := {|
  add := Qcplus;
  sub := Qcminus;
  mul := Qcmult;
  div := Qcdiv;
  opp := Qcopp;
  ltb := Qc_ltb;
  leb := Qc_leb;
  lit := Q2Qc
|}.

(** *** Rounded rationals

    Arithmetic in which every operation returns the exact result rounded by
    [rnd]: exact arithmetic when [rnd] is the identity, and, short of
    overflow, binary64 when [rnd] rounds to the nearest binary64. *)
Definition rounded_arith (rnd : Qc -> Qc) : Arith Qc := {|
  add := fun x y => rnd (x + y)%Qc;
  sub := fun x y => rnd (x - y)%Qc;
  mul := fun x y => rnd (x * y)%Qc;
  div := fun x y => rnd (x / y)%Qc;
  opp := Qcopp;
  ltb := Qc_ltb;
  leb := Qc_leb;
  lit := fun q => rnd (Q2Qc q)
|}.

(** What the properties below need of a rounding: it is monotone, it leaves
    its own results unchanged, and 0 and 1 are among them. *)
Record rounding (rnd : Qc -> Qc) : Prop := {
  rnd_mono : forall x y, (x <= y)%Qc -> (rnd x <= rnd y)%Qc;
  rnd_idem : forall x, rnd (rnd x) = rnd x;
  rnd_0 : rnd 0%Qc = 0%Qc;
  rnd_1 : rnd 1%Qc = 1%Qc
}.

(** A capital the arithmetic can hold, and not negative. *)
Definition sound (rnd : Qc -> Qc) (c : Qc) : Prop :=
  rnd c = c /\ (0 <= c)%Qc.

(** Rounding down to a multiple of [1 / 2^bits], a fixed-point format. *)
Definition round_down (bits : positive) (x : Qc) : Qc :=
  Q2Qc (Qfloor (x * inject_Z (2 ^ Zpos bits)) # 2 ^ bits).

(** Turns a goal on [Qc] and its hypotheses into statements on [Q], for
    [lra] and [nra]. *)
Ltac qc_to_q :=
  unfold Qcle, Qclt, Qcminus, Qcplus, Qcmult, Qcopp, Q2Qc in *;
  cbn [this] in *; rewrite ?Qred_correct in *.

(** ** The random number generator *)

(** [np.random] is a process-wide generator.  Its state is represented by the
    sequence of values it is going to return ([stream], fixed by the seed)
    and the number of values already drawn ([cursor]). *)
Record RandomState (F : Type) : Type := {
  stream : nat -> F;
  cursor : nat
}.

Section Generator.
Context {F : Type}.

(** [np.random.random()]: the next value, and the advanced state. *)
Definition random (rng : RandomState F) : F * RandomState F :=
  (stream rng (cursor rng),
   {| stream := stream rng; cursor := S (cursor rng) |}).

(** The state after [n] more draws. *)
Definition advance (n : nat) (rng : RandomState F) : RandomState F :=
  {| stream := stream rng; cursor := n + cursor rng |}.

(** The [k]-th value the generator returns from state [rng] on. *)
Definition draw (rng : RandomState F) (k : nat) : F :=
  stream rng (k + cursor rng).

(** A generator that returns the values of [us], then [d] for ever. *)
Definition replay (us : list F) (d : F) : RandomState F :=
  {| stream := fun k => nth k us d; cursor := 0 |}.

(** [np.random.seed(s)], for a generator whose output sequence under seed
    [s] is [generator s]. *)
Definition seed (generator : Z -> nat -> F) (s : Z) : RandomState F :=
  {| stream := generator s; cursor := 0 |}.
End Generator.

(** ** mmm_complete_backtest.py *)

Module CompleteBacktest.

(** The module-level constants, and the two loop bounds that the source
    writes as the literals [36] and [4]. *)
Record Config (F : Type) : Type := {
  INITIAL_CAPITAL : F;
  POSITION_SIZE : F;
  WIN_RATE : F;
  PREMIUM : F;
  TAKE_PROFIT : F;
  months : nat;
  trades_per_month : nat
}.

Section Simulator.
Context {F : Type} {A : Arith F}.
Variable cfg : Config F.

(** Lines 27-32: the capital update of one trade, for the position size
    [position] and the drawn value [u]. *)
Definition settle (capital position u : F) : F :=
  if ltb u (WIN_RATE cfg)
  then add capital (mul (mul position (PREMIUM cfg)) (TAKE_PROFIT cfg))
  else sub capital (mul (mul position (PREMIUM cfg)) (lit (3 # 10))).

(** Body of the innermost loop, lines 25-32. *)
Definition trade (capital u : F) : F :=
  let position := mul capital (POSITION_SIZE cfg) in
  settle capital position u.

(** [for _ in range(n)]: the trades of one month. *)
Fixpoint trades_loop (n : nat) (capital : F) (rng : RandomState F)
  : F * RandomState F :=
  match n with
  | O => (capital, rng)
  | S n' =>
      let (u, rng') := random rng in
      trades_loop n' (trade capital u) rng'
  end.

(** [for month in range(m)], with [monthly.append(capital)] after the
    trades of each month. *)
Fixpoint months_loop (m : nat) (capital : F) (monthly : list F)
    (rng : RandomState F) : F * list F * RandomState F :=
  match m with
  | O => (capital, monthly, rng)
  | S m' =>
      let (capital', rng') := trades_loop (trades_per_month cfg) capital rng in
      months_loop m' capital' (monthly ++ [capital']) rng'
  end.

(** Body of the outer loop: one simulated path, the tuple
    [(capital, monthly)]. *)
Definition one_run (rng : RandomState F) : (F * list F) * RandomState F :=
  let '(capital, monthly, rng') :=
    months_loop (months cfg) (INITIAL_CAPITAL cfg) [] rng in
  ((capital, monthly), rng').

(** [for _ in range(runs)], with [results.append((capital, monthly))]. *)
Fixpoint runs_loop (r : nat) (results : list (F * list F))
    (rng : RandomState F) : list (F * list F) * RandomState F :=
  match r with
  | O => (results, rng)
  | S r' =>
      let (res, rng') := one_run rng in
      runs_loop r' (results ++ [res]) rng'
  end.

Definition run_simulation (runs : nat) (rng : RandomState F)
  : list (F * list F) * RandomState F :=
  runs_loop runs [] rng.

(** [simulate] of the specification with a seed: [np.random.seed(s)]
    followed by [run_simulation(runs)]. *)
Definition simulate (generator : Z -> nat -> F) (runs : nat) (s : Z)
  : list (F * list F) :=
  fst (run_simulation runs (seed generator s)).

(** The scenario loop of [main], lines 115-125, for one tuple
    [(name, win, prem)] of [scenarios]: the same trade with the scenario's
    win rate and premium, and only the final capital [c] of each run kept
    in [caps]. *)
Definition scenario_trade (win prem c u : F) : F :=
  let pos := mul c (POSITION_SIZE cfg) in
  if ltb u win
  then add c (mul (mul pos prem) (TAKE_PROFIT cfg))
  else sub c (mul (mul pos prem) (lit (3 # 10))).

Fixpoint scenario_trades (win prem : F) (t : nat) (c : F)
    (rng : RandomState F) : F * RandomState F :=
  match t with
  | O => (c, rng)
  | S t' =>
      let (u, rng') := random rng in
      scenario_trades win prem t' (scenario_trade win prem c u) rng'
  end.

Fixpoint scenario_months (win prem : F) (m : nat) (c : F)
    (rng : RandomState F) : F * RandomState F :=
  match m with
  | O => (c, rng)
  | S m' =>
      let (c', rng') :=
        scenario_trades win prem (trades_per_month cfg) c rng in
      scenario_months win prem m' c' rng'
  end.

Fixpoint scenario_caps (win prem : F) (r : nat) (caps : list F)
    (rng : RandomState F) : list F * RandomState F :=
  match r with
  | O => (caps, rng)
  | S r' =>
      let (c, rng') :=
        scenario_months win prem (months cfg) (INITIAL_CAPITAL cfg) rng in
      scenario_caps win prem r' (caps ++ [c]) rng'
  end.
End Simulator.

(** The constants a scenario of [main] runs with. *)
Definition scenario_config {F : Type} (cfg : Config F) (win prem : F)
  : Config F := {|
  INITIAL_CAPITAL := INITIAL_CAPITAL cfg;
  POSITION_SIZE := POSITION_SIZE cfg;
  WIN_RATE := win;
  PREMIUM := prem;
  TAKE_PROFIT := TAKE_PROFIT cfg;
  months := months cfg;
  trades_per_month := trades_per_month cfg
|}.

(** The same constants with another starting capital. *)
Definition with_initial_capital {F : Type} (cfg : Config F) (c : F)
  : Config F := {|
  INITIAL_CAPITAL := c;
  POSITION_SIZE := POSITION_SIZE cfg;
  WIN_RATE := WIN_RATE cfg;
  PREMIUM := PREMIUM cfg;
  TAKE_PROFIT := TAKE_PROFIT cfg;
  months := months cfg;
  trades_per_month := trades_per_month cfg
|}.

(** The same constants with other loop bounds. *)
Definition with_schedule {F : Type} (cfg : Config F) (m t : nat)
  : Config F := {|
  INITIAL_CAPITAL := INITIAL_CAPITAL cfg;
  POSITION_SIZE := POSITION_SIZE cfg;
  WIN_RATE := WIN_RATE cfg;
  PREMIUM := PREMIUM cfg;
  TAKE_PROFIT := TAKE_PROFIT cfg;
  months := m;
  trades_per_month := t
|}.

(** The constants of the script. *)
Definition source_config {F : Type} {A : Arith F} : Config F := {|
  INITIAL_CAPITAL := lit (50000 # 1);
  POSITION_SIZE := lit (25 # 100);
  WIN_RATE := lit (85 # 100);
  PREMIUM := lit (5 # 100);
  TAKE_PROFIT := lit (50 # 100);
  months := 36;
  trades_per_month := 4
|}.

(** *** The simulator, trade by trade

    The reading of section 4.1 of the specification: one capital value per
    trade, each obtained from the previous one and the next drawn value. *)
Section TradeByTrade.
Context {F : Type} {A : Arith F}.
Variable cfg : Config F.

(** "If [u < win_probability]: capital += capital x position_fraction x
    premium_fraction x take_profit_fraction.  Else: capital -= capital x
    position_fraction x premium_fraction x 0.3". *)
Definition spec_trade (capital u : F) : F :=
  if ltb u (WIN_RATE cfg)
  then add capital
         (mul (mul (mul capital (POSITION_SIZE cfg)) (PREMIUM cfg))
            (TAKE_PROFIT cfg))
  else sub capital
         (mul (mul (mul capital (POSITION_SIZE cfg)) (PREMIUM cfg))
            (lit (3 # 10))).

(** The capital after [k] trades that start from [capital] and use the
    values the generator returns from [rng] on. *)
Fixpoint spec_capital_from (capital : F) (rng : RandomState F) (k : nat) : F :=
  match k with
  | O => capital
  | S k' => spec_trade (spec_capital_from capital rng k') (draw rng k')
  end.

(** The capital after [k] trades of a run. *)
Definition spec_capital_after (rng : RandomState F) (k : nat) : F :=
  spec_capital_from (INITIAL_CAPITAL cfg) rng k.

(** One entry per elapsed month: the capital after the trades of months
    [0 .. j]. *)
Definition spec_path (rng : RandomState F) : list F :=
  map (fun j => spec_capital_after rng (S j * trades_per_month cfg))
      (seq 0 (months cfg)).

(** Number of values one run draws. *)
Definition draws_per_run : nat := months cfg * trades_per_month cfg.

Definition spec_result (rng : RandomState F) : F * list F :=
  (spec_capital_after rng draws_per_run, spec_path rng).

(** The results of [runs] runs: run [i] uses the draws that follow those of
    the runs before it. *)
Definition spec_results (runs : nat) (rng : RandomState F)
  : list (F * list F) :=
  map (fun i => spec_result (advance (i * draws_per_run) rng)) (seq 0 runs).

(** A trade sized on the starting capital instead of the current one, the
    reading the specification excludes. *)
Definition fixed_base_trade (capital u : F) : F :=
  settle cfg capital (mul (INITIAL_CAPITAL cfg) (POSITION_SIZE cfg)) u.
End TradeByTrade.

(** *** Configurations and paths of the specification *)
Section Domain.
Context {F : Type} {A : Arith F}.

(** The ranges of section 3: initial capital positive, position fraction in
    (0,1], win probability in [0,1], premium fraction in (0,1), take-profit
    fraction in (0,1]. *)
Definition valid_config (cfg : Config F) : bool :=
  ltb (lit 0) (INITIAL_CAPITAL cfg)
  && (ltb (lit 0) (POSITION_SIZE cfg) && leb (POSITION_SIZE cfg) (lit 1))
  && (leb (lit 0) (WIN_RATE cfg) && leb (WIN_RATE cfg) (lit 1))
  && (ltb (lit 0) (PREMIUM cfg) && ltb (PREMIUM cfg) (lit 1))
  && (ltb (lit 0) (TAKE_PROFIT cfg) && leb (TAKE_PROFIT cfg) (lit 1)).

(** Every value the generator returns is in [0,1). *)
Definition unit_draws (rng : RandomState F) : Prop :=
  forall k, leb (lit 0) (draw rng k) = true /\ ltb (draw rng k) (lit 1) = true.

(** Each entry is related to the one before it, the first to [prev]. *)
Fixpoint chain (rel : F -> F -> bool) (prev : F) (path : list F) : bool :=
  match path with
  | [] => true
  | x :: rest => rel prev x && chain rel x rest
  end.

Definition non_decreasing (start : F) (path : list F) : bool :=
  chain leb start path.

Definition non_increasing (start : F) (path : list F) : bool :=
  chain (fun a b => leb b a) start path.

(** A result with every capital value multiplied by [k]. *)
Definition scale_result (k : F) (res : F * list F) : F * list F :=
  (mul k (fst res), map (mul k) (snd res)).

(** The same constants with the starting capital multiplied by [k]. *)
Definition scaled_config (cfg : Config F) (k : F) : Config F :=
  with_initial_capital cfg (mul k (INITIAL_CAPITAL cfg)).
End Domain.

(** The ranges of [valid_config] in exact arithmetic, as inequalities. *)
Record in_range (cfg : Config Qc) : Prop := {
  capital_pos : (0 < INITIAL_CAPITAL cfg)%Qc;
  position_pos : (0 < POSITION_SIZE cfg)%Qc;
  position_le_1 : (POSITION_SIZE cfg <= 1)%Qc;
  win_nonneg : (0 <= WIN_RATE cfg)%Qc;
  win_le_1 : (WIN_RATE cfg <= 1)%Qc;
  premium_pos : (0 < PREMIUM cfg)%Qc;
  premium_lt_1 : (PREMIUM cfg < 1)%Qc;
  take_profit_pos : (0 < TAKE_PROFIT cfg)%Qc;
  take_profit_le_1 : (TAKE_PROFIT cfg <= 1)%Qc
}.

(** *** Expected final capital

    The values of [np.random.random()] are taken equally likely among the
    [N] points [0/N, 1/N, ..., (N-1)/N]; the expected final capital of a run
    is the mean of the run's final capital over all sequences of draws. *)
Section Expectation.
Definition grid (N : nat) : list Qc :=
  map (fun k => Q2Qc (Z.of_nat k # Pos.of_nat N)) (seq 0 N).

Definition Qc_of_nat (n : nat) : Qc := Q2Qc (Z.of_nat n # 1).

Definition total (l : list Qc) : Qc := fold_right Qcplus (Q2Qc 0) l.

(** [np.mean] *)
Definition mean (l : list Qc) : Qc := (total l / Qc_of_nat (length l))%Qc.

(** Mean of [f] over all sequences of [n] draws. *)
Fixpoint mean_over_draws (N n : nat) (f : list Qc -> Qc) : Qc :=
  match n with
  | O => f []
  | S n' =>
      mean (map (fun u => mean_over_draws N n' (fun us => f (u :: us)))
              (grid N))
  end.

Definition final_capital (cfg : Config Qc) (us : list Qc) : Qc :=
  fst (fst (one_run cfg (replay us (Q2Qc 0)))).

(** The factor a trade multiplies the capital by, for the drawn value [u]. *)
Definition growth (cfg : Config Qc) (u : Qc) : Qc :=
  if Qc_ltb u (WIN_RATE cfg)
  then (1 + POSITION_SIZE cfg * PREMIUM cfg * TAKE_PROFIT cfg)%Qc
  else (1 - POSITION_SIZE cfg * PREMIUM cfg * Q2Qc (3 # 10))%Qc.

Definition expected_final_capital (N : nat) (cfg : Config Qc) : Qc :=
  mean_over_draws N (draws_per_run cfg) (final_capital cfg).
End Expectation.

End CompleteBacktest.

(** ** mmm_option_selling_backtest.py *)

Module OptionSelling.

Section Script.
Context {F : Type} {A : Arith F} {R : Sqrt F}.

Definition INITIAL_CAPITAL : F := lit (50000 # 1).
Definition DTE_TARGET : nat := 30.
Definition POSITION_SIZE : F := lit (25 # 100).
Definition MIN_RETURN : F := lit (2 # 100).

(** An entry of [trades]; [date] is the position of the day in [hist]. *)
Record Trade : Type := {
  date : nat;
  premium : F;
  profit : F;
  ret : F
}.

(** The variables the loop of [simulate_option_sell] updates. *)
Record LoopState : Type := {
  capital : F;
  position_value : F;
  trades : list Trade;
  rng : RandomState F
}.

(** [np.random.uniform(low, high)]: [low + (high - low) * random()]. *)
Definition uniform (low high : F) (g : RandomState F) : F * RandomState F :=
  let (u, g') := random g in
  (add low (mul (sub high low) u), g').

(** [hist['Close'].iloc[i]] *)
Definition close (closes : list F) (i : nat) : F := nth i closes (lit 0).

(** Lines 100-136, the body of the loop for day [i]. *)
Definition day (closes : list F) (st : LoopState) (i : nat) : LoopState :=
  if leb (close closes (i - 1)) (close closes i) then st
  else
    let (estimated_iv, rng1) :=
      uniform (lit (4 # 10)) (lit (8 # 10)) (rng st) in
    let premium_pct :=
      mul (mul estimated_iv
             (sqrt (div (lit (Z.of_nat DTE_TARGET # 1)) (lit (365 # 1)))))
          (lit (3 # 10)) in
    if ltb premium_pct MIN_RETURN
    then {| capital := capital st; position_value := position_value st;
            trades := trades st; rng := rng1 |}
    else
      let premium := mul (position_value st) premium_pct in
      let (outcome, rng2) := random rng1 in
      let profit :=
        if ltb outcome (lit (70 # 100)) then premium
        else opp (sub premium (mul (position_value st) (lit (5 # 100)))) in
      let capital' := add (capital st) profit in
      {| capital := capital';
         position_value := mul capital' POSITION_SIZE;
         trades := trades st ++
                   [{| date := i; premium := premium; profit := profit;
                       ret := div profit (position_value st) |}];
         rng := rng2 |}.

(** The position value the next trade is sized on is the current capital
    times [POSITION_SIZE]. *)
Definition sized_on_capital (st : LoopState) : Prop :=
  position_value st = mul (capital st) POSITION_SIZE.

(** The reading of the specification, to compare with [day]: a trade is
    sized on the capital at the time of the trade times [POSITION_SIZE].

    [premium_pct u] is the premium as a fraction of the position (lines
    107-109) when [u] is the value the generator gives for the implied
    volatility, and [trade_on position i u outcome] is the trade of day [i]
    on a position of value [position] (lines 115-133), [outcome] being the
    value drawn on line 118. *)
Definition premium_pct (u : F) : F :=
  let estimated_iv :=
    add (lit (4 # 10)) (mul (sub (lit (8 # 10)) (lit (4 # 10))) u) in
  mul (mul estimated_iv
         (sqrt (div (lit (Z.of_nat DTE_TARGET # 1)) (lit (365 # 1)))))
      (lit (3 # 10)).

Definition trade_on (position : F) (i : nat) (u outcome : F) : Trade :=
  let premium := mul position (premium_pct u) in
  let profit :=
    if ltb outcome (lit (70 # 100)) then premium
    else opp (sub premium (mul position (lit (5 # 100)))) in
  {| date := i; premium := premium; profit := profit;
     ret := div profit position |}.

(** The body of the loop in that reading: it keeps no position value of its
    own (the field only follows the capital) and sizes the trade of the day
    on [capital * POSITION_SIZE]. *)
Definition spec_day (closes : list F) (st : LoopState) (i : nat)
  : LoopState :=
  if leb (close closes (i - 1)) (close closes i) then st
  else if ltb (premium_pct (draw (rng st) 0)) MIN_RETURN
  then {| capital := capital st; position_value := position_value st;
          trades := trades st; rng := advance 1 (rng st) |}
  else
    let t := trade_on (mul (capital st) POSITION_SIZE) i
               (draw (rng st) 0) (draw (rng st) 1) in
    {| capital := add (capital st) (profit t);
       position_value := mul (add (capital st) (profit t)) POSITION_SIZE;
       trades := trades st ++ [t];
       rng := advance 2 (rng st) |}.

(** Lines 94-96, the variables before the loop. *)
Definition start (g : RandomState F) : LoopState :=
  {| capital := INITIAL_CAPITAL;
     position_value := mul INITIAL_CAPITAL POSITION_SIZE;
     trades := [];
     rng := g |}.

(** [range(30, len(hist) - DTE_TARGET)] *)
Definition days (closes : list F) : list nat :=
  seq 30 (length closes - DTE_TARGET - 30).

(** The dictionary [simulate_option_sell] returns, without the ticker. *)
Record Summary : Type := {
  summary_trades : nat;
  summary_capital : F;
  total_return : F;
  trades_data : list Trade
}.

(** [simulate_option_sell] on the closing prices [closes] of the
    downloaded history: [None] below 100 days. *)
Definition simulate_option_sell (closes : list F) (g : RandomState F)
  : option (Summary * RandomState F) :=
  if length closes <? 100 then None
  else
    let st := fold_left (day closes) (days closes) (start g) in
    Some ({| summary_trades := length (trades st);
             summary_capital := capital st;
             total_return :=
               mul (div (sub (capital st) INITIAL_CAPITAL) INITIAL_CAPITAL)
                   (lit (100 # 1));
             trades_data := trades st |},
          rng st).
End Script.

End OptionSelling.

(** ** The rest of the two scripts *)

(** [==] on numbers. *)
Class Eqb (F : Type) : Type := { equal : F -> F -> bool }.

#[export] Instance binary64_eqb : Eqb float := {| equal := PrimFloat.eqb |}.

#[export] Instance exact_eqb : Eqb Qc := {| equal := Qc_eq_bool |}.

(** *** Python's [min] and [max] *)
Section Builtins.
Context {X K : Type}.
Variable lt : K -> K -> bool.
Variable key : X -> K.

(** [min(l, key=key)]: the first item is kept until an item with a smaller
    key comes; [None] stands for the [ValueError] on an empty list. *)
Definition py_min_by (l : list X) : option X :=
  match l with
  | [] => None
  | x :: rest =>
      Some (fold_left (fun m y => if lt (key y) (key m) then y else m) rest x)
  end.

(** [max(l, key=key)]: the first item is kept until an item with a larger
    key comes. *)
Definition py_max_by (l : list X) : option X :=
  match l with
  | [] => None
  | x :: rest =>
      Some (fold_left (fun m y => if lt (key m) (key y) then y else m) rest x)
  end.
End Builtins.

(** [min(l)] and [max(l)] on numbers, [d] for the empty list. *)
Definition py_min {F : Type} {A : Arith F} (l : list F) (d : F) : F :=
  match py_min_by ltb (fun x => x) l with Some m => m | None => d end.

Definition py_max {F : Type} {A : Arith F} (l : list F) (d : F) : F :=
  match py_max_by ltb (fun x => x) l with Some m => m | None => d end.

(** *** mmm_option_selling_backtest.py, the other functions *)

Module OptionSellingBacktest.
Import OptionSelling.

Definition TICKERS : list string :=
  ["AMZU"%string; "NVDL"%string; "SOXL"%string; "IREN"%string;
   "BITX"%string].

(** **** get_options_chain

    Instants are counted in microseconds, the resolution of [datetime]; an
    expiration string ['%Y-%m-%d'] is given by the number of its day, and is
    parsed as the midnight that starts that day. *)

Definition day_us : Z := 86400000000.

(** [timedelta.days]: whole days, rounded down also when negative. *)
Definition timedelta_days (delta : Z) : Z := (delta / day_us)%Z.

(** [datetime.now() + timedelta(days=DTE_TARGET)] *)
Definition target_date (now : Z) : Z :=
  (now + Z.of_nat DTE_TARGET * day_us)%Z.

(** The key of line 43:
    [abs((datetime.strptime(x, '%Y-%m-%d') - target_date).days)]. *)
Definition expiration_key (now : Z) (expiration : Z) : Z :=
  Z.abs (timedelta_days (expiration * day_us - target_date now)).

Definition closest_expiration (now : Z) (expirations : list Z) : option Z :=
  py_min_by Z.ltb (expiration_key now) expirations.

(** [get_options_chain]: [options] is [stock.options] and [option_chain]
    is [stock.option_chain], each [None] where the call raises; the pair
    [(None, None)] is returned for an empty [options] and from the
    [except] branch. *)
Definition get_options_chain {C P : Type} (options : option (list Z))
    (option_chain : Z -> option (C * P)) (now : Z) : option C * option P :=
  match options with
  | None => (None, None)
  | Some expirations =>
      match closest_expiration now expirations with
      | None => (None, None)
      | Some closest_exp =>
          match option_chain closest_exp with
          | None => (None, None)
          | Some (calls, puts) => (Some calls, Some puts)
          end
      end
  end.

Section Script.
Context {F : Type} {A : Arith F} {E : Eqb F} {R : Sqrt F}.

(** **** calculate_iv_rank *)
Definition calculate_iv_rank (iv : F) (hist_ivs : list F) : F :=
  if length hist_ivs <? 30 then div iv (lit (100 # 1))
  else
    let iv_low := py_min hist_ivs (lit 0) in
    let iv_high := py_max hist_ivs (lit 0) in
    if equal iv_high iv_low then lit (5 # 10)
    else div (sub iv iv_low) (sub iv_high iv_low).

(** **** is_red_day

    [prices[-1]] and [prices[-2]] are the last and the last but one. *)
Definition is_red_day (prices : list F) : bool :=
  if length prices <? 2 then false
  else ltb (nth (length prices - 1) prices (lit 0))
           (nth (length prices - 2) prices (lit 0)).

(** The days of the loop of [simulate_option_sell] that are not skipped by
    the test of line 101. *)
Definition acted_on (closes : list F) (i : nat) : bool :=
  negb (leb (close closes (i - 1)) (close closes i)).

(** **** run_backtest

    [history t] is the list of closing prices downloaded for ticker [t],
    empty when there is none. *)
Variable history : string -> list F.

(** Lines 160-169, the loop over the tickers: a result that is [None] is
    left out, and the generator goes from one ticker to the next. *)
Fixpoint backtest_loop (tickers : list string)
    (results : list (string * Summary)) (g : RandomState F)
  : list (string * Summary) * RandomState F :=
  match tickers with
  | [] => (results, g)
  | ticker :: rest =>
      match simulate_option_sell (history ticker) g with
      | None => backtest_loop rest results g
      | Some (result, g') =>
          backtest_loop rest (results ++ [(ticker, result)]) g'
      end
  end.

(** [sum(...)]: from 0, left to right. *)
Definition py_sum (l : list F) : F := fold_left add l (lit 0).

Definition result_return (r : string * Summary (F:=F)) : F :=
  total_return (snd r).

(** The figures of the summary, lines 176-199. *)
Record Report : Type := {
  average_return : F;
  total_trades : nat;
  monthly_return : F;
  achieved : bool;
  best : string * Summary (F:=F);
  worst : string * Summary (F:=F)
}.

(** [None] when [results] is empty and nothing is summarised. *)
Definition summarise (results : list (string * Summary (F:=F)))
  : option Report :=
  match py_max_by ltb result_return results,
        py_min_by ltb result_return results with
  | Some b, Some w =>
      let total_return :=
        div (py_sum (map result_return results))
            (lit (Z.of_nat (length results) # 1)) in
      let monthly_return := div total_return (lit (12 # 1)) in
      Some {| average_return := total_return;
              total_trades :=
                fold_left Nat.add
                  (map (fun r => summary_trades (snd r)) results) 0;
              monthly_return := monthly_return;
              achieved := leb (lit (5 # 1)) monthly_return;
              best := b;
              worst := w |}
  | _, _ => None
  end.

(** [run_backtest] returns [results]; the summary is only printed. *)
Definition run_backtest (g : RandomState F)
  : list (string * Summary) * RandomState F :=
  backtest_loop TICKERS [] g.
End Script.

End OptionSellingBacktest.

(** *** mmm_complete_backtest.py, [main] *)

Module CompleteBacktestMain.
Import CompleteBacktest.

(** The three outcomes of lines 96-101. *)
Inductive Status : Type := ACHIEVED | CLOSE | BELOW_TARGET.

Section Main.
Context {F : Type} {A : Arith F}.
Variable cfg : Config F.

(** [np.mean], which is numpy's. *)
Variable np_mean : list F -> F.

(** Line 61, [(finals - INITIAL_CAPITAL) / INITIAL_CAPITAL * 100], taken
    element by element. *)
Definition percent_return (capital : F) : F :=
  mul (div (sub capital (INITIAL_CAPITAL cfg)) (INITIAL_CAPITAL cfg))
      (lit (100 # 1)).

Definition returns_of (finals : list F) : list F := map percent_return finals.

(** Lines 93-101. *)
Definition monthly_of (returns : list F) : F :=
  div (np_mean returns) (lit (36 # 1)).

Definition monthly_status (monthly : F) : Status :=
  if leb (lit (5 # 1)) monthly then ACHIEVED
  else if leb (lit (3 # 1)) monthly then CLOSE
  else BELOW_TARGET.

(** Line 127. *)
Definition scenario_return (caps : list F) : F :=
  percent_return (np_mean caps).

(** Line 128: [true] for the check mark, [false] for the cross. *)
Definition scenario_status (ret : F) : bool :=
  if ltb (lit (50 # 1)) ret then true
  else if ltb (lit 0) ret then true
  else false.

Definition scenarios : list (string * F * F) :=
  [("Perfect (95% win)"%string, lit (95 # 100), lit (6 # 100));
   ("His Claim (85% win)"%string, lit (85 # 100), lit (5 # 100));
   ("Bear Market (70% win)"%string, lit (70 # 100), lit (5 # 100));
   ("Crash (50% win)"%string, lit (50 # 100), lit (7 # 100))].

(** Lines 114-129, the loop over the scenarios: a row is the status, the
    name and the return that are printed. *)
Fixpoint scenarios_loop (l : list (string * F * F))
    (rows : list (bool * string * F)) (rng : RandomState F)
  : list (bool * string * F) * RandomState F :=
  match l with
  | [] => (rows, rng)
  | (name, win, prem) :: rest =>
      let (caps, rng') := scenario_caps cfg win prem 100 [] rng in
      let ret := scenario_return caps in
      scenarios_loop rest (rows ++ [(scenario_status ret, name, ret)]) rng'
  end.

(** What [main] computes and prints. *)
Record MainReport : Type := {
  finals : list F;
  returns : list F;
  monthly : F;
  status : Status;
  scenario_rows : list (bool * string * F)
}.

Definition main (rng : RandomState F) : MainReport * RandomState F :=
  let (results, rng1) := run_simulation cfg 1000 rng in
  let finals := map fst results in
  let returns := returns_of finals in
  let monthly := monthly_of returns in
  let (rows, rng2) := scenarios_loop scenarios [] rng1 in
  ({| finals := finals;
      returns := returns;
      monthly := monthly;
      status := monthly_status monthly;
      scenario_rows := rows |}, rng2).
End Main.

(** The factors by which a winning and a losing trade multiply the capital
    in exact arithmetic, and the number of winning draws among the first
    [n]. *)
Definition win_factor (cfg : Config Qc) : Qc :=
  (1 + POSITION_SIZE cfg * PREMIUM cfg * TAKE_PROFIT cfg)%Qc.

Definition loss_factor (cfg : Config Qc) : Qc :=
  (1 - POSITION_SIZE cfg * PREMIUM cfg * Q2Qc (3 # 10))%Qc.

Fixpoint wins (cfg : Config Qc) (rng : RandomState Qc) (n : nat) : nat :=
  match n with
  | O => O
  | S n' =>
      (if Qc_ltb (draw rng n') (WIN_RATE cfg) then 1 else 0) + wins cfg rng n'
  end.

End CompleteBacktestMain.

(** ** Properties *)

(** *** The generator *)

Section GeneratorFacts.
Context {F : Type}.

Lemma advance_advance (a b : nat) (rng : RandomState F) :
  advance b (advance a rng) = advance (a + b) rng.
Proof.
  unfold advance; cbn [stream cursor]. f_equal. lia.
Qed.

Lemma advance_0 (rng : RandomState F) : advance 0 rng = rng.
Proof. destruct rng; reflexivity. Qed.

Lemma random_draw (rng : RandomState F) :
  random rng = (draw rng 0, advance 1 rng).
Proof. reflexivity. Qed.

Lemma draw_advance (a k : nat) (rng : RandomState F) :
  draw (advance a rng) k = draw rng (a + k).
Proof.
  unfold draw, advance; cbn [stream cursor]. f_equal. lia.
Qed.

Lemma draw_replay (us : list F) (d : F) (k : nat) :
  draw (replay us d) k = nth k us d.
Proof.
  unfold draw, replay; cbn [stream cursor]. now rewrite Nat.add_0_r.
Qed.
End GeneratorFacts.

(** *** The loops of [run_simulation], unfolded *)

Module CompleteBacktestFacts.
Import CompleteBacktest.

Section Loops.
Context {F : Type} {A : Arith F}.
Variable cfg : Config F.

Lemma trade_spec (capital u : F) :
  trade cfg capital u = spec_trade cfg capital u.
Proof. reflexivity. Qed.

Lemma spec_capital_from_shift (c : F) (rng : RandomState F) (k : nat) :
  spec_capital_from cfg (spec_trade cfg c (draw rng 0)) (advance 1 rng) k
  = spec_capital_from cfg c rng (S k).
Proof.
  induction k as [|k IH].
  - reflexivity.
  - cbn [spec_capital_from] in *. rewrite IH, draw_advance. reflexivity.
Qed.

Lemma spec_capital_from_add (c : F) (rng : RandomState F) (a b : nat) :
  spec_capital_from cfg (spec_capital_from cfg c rng a) (advance a rng) b
  = spec_capital_from cfg c rng (a + b).
Proof.
  induction b as [|b IH].
  - now rewrite Nat.add_0_r.
  - rewrite Nat.add_succ_r. cbn [spec_capital_from].
    now rewrite IH, draw_advance.
Qed.

Lemma trades_loop_spec (n : nat) (c : F) (rng : RandomState F) :
  trades_loop cfg n c rng = (spec_capital_from cfg c rng n, advance n rng).
Proof.
  revert c rng; induction n as [|n IH]; intros c rng.
  - now rewrite advance_0.
  - cbn [trades_loop]. rewrite random_draw, IH, trade_spec.
    rewrite spec_capital_from_shift, advance_advance. reflexivity.
Qed.

Lemma months_loop_spec (m : nat) (c : F) (monthly : list F)
    (rng : RandomState F) :
  months_loop cfg m c monthly rng
  = (spec_capital_from cfg c rng (m * trades_per_month cfg),
     monthly ++ map (fun j => spec_capital_from cfg c rng
                                (S j * trades_per_month cfg)) (seq 0 m),
     advance (m * trades_per_month cfg) rng).
Proof.
  revert c monthly rng; induction m as [|m IH]; intros c monthly rng.
  - cbn. now rewrite app_nil_r, advance_0.
  - cbn [months_loop]. rewrite trades_loop_spec, IH.
    rewrite spec_capital_from_add, advance_advance.
    rewrite <- app_assoc. cbn [app seq map].
    rewrite <- seq_shift, map_map.
    replace (1 * trades_per_month cfg) with (trades_per_month cfg) by lia.
    do 4 f_equal.
    apply map_ext; intros j. now rewrite spec_capital_from_add.
Qed.

Lemma one_run_spec (rng : RandomState F) :
  one_run cfg rng = (spec_result cfg rng, advance (draws_per_run cfg) rng).
Proof.
  unfold one_run. rewrite months_loop_spec. reflexivity.
Qed.

Lemma runs_loop_spec (r : nat) (results : list (F * list F))
    (rng : RandomState F) :
  runs_loop cfg r results rng
  = (results ++ spec_results cfg r rng, advance (r * draws_per_run cfg) rng).
Proof.
  revert results rng; induction r as [|r IH]; intros results rng.
  - cbn. now rewrite app_nil_r, advance_0.
  - cbn [runs_loop]. rewrite one_run_spec, IH, advance_advance.
    rewrite <- app_assoc. unfold spec_results. cbn [app seq map].
    rewrite <- seq_shift, map_map, advance_0.
    do 3 f_equal.
    apply map_ext; intros i. now rewrite advance_advance.
Qed.

Lemma run_simulation_spec (runs : nat) (rng : RandomState F) :
  run_simulation cfg runs rng
  = (spec_results cfg runs rng, advance (runs * draws_per_run cfg) rng).
Proof. apply runs_loop_spec. Qed.
End Loops.

End CompleteBacktestFacts.

(** *** Lists indexed by [seq] *)

Lemma In_map_seq {B : Type} (f : nat -> B) (n : nat) (x : B) :
  In x (map f (seq 0 n)) -> exists i, i < n /\ x = f i.
Proof.
  intros Hin. apply in_map_iff in Hin. destruct Hin as [i [Hf Hi]].
  apply in_seq in Hi. exists i. split; [lia | now symmetry].
Qed.

Lemma last_map_seq {B : Type} (f : nat -> B) (n : nat) (d : B) :
  last (map f (seq 0 (S n))) d = f n.
Proof.
  rewrite seq_S, map_app. cbn [map]. apply last_last.
Qed.

(** *** The results of [run_simulation] *)

Module SimulatorFacts.
Import CompleteBacktest CompleteBacktestFacts.

Section Results.
Context {F : Type} {A : Arith F}.
Variable cfg : Config F.

Lemma results_spec (runs : nat) (rng : RandomState F) :
  fst (run_simulation cfg runs rng) = spec_results cfg runs rng.
Proof. now rewrite run_simulation_spec. Qed.

(** A result of [run_simulation] is the result of a run that starts at some
    state of the generator. *)
Lemma In_results (runs : nat) (rng : RandomState F) (res : F * list F) :
  In res (fst (run_simulation cfg runs rng)) ->
  exists i, i < runs /\
            res = spec_result cfg (advance (i * draws_per_run cfg) rng).
Proof.
  rewrite results_spec. unfold spec_results. apply In_map_seq.
Qed.

Lemma spec_path_length (rng : RandomState F) :
  length (spec_path cfg rng) = months cfg.
Proof. unfold spec_path. now rewrite length_map, length_seq. Qed.

(** The draws a run does not reach do not matter. *)
Lemma spec_capital_from_agree (c : F) (g1 g2 : RandomState F) (k : nat) :
  (forall j, j < k -> draw g1 j = draw g2 j) ->
  spec_capital_from cfg c g1 k = spec_capital_from cfg c g2 k.
Proof.
  induction k as [|k IH]; intros Hd.
  - reflexivity.
  - cbn [spec_capital_from]. rewrite IH, Hd by auto with arith. reflexivity.
Qed.

Lemma spec_result_agree (g1 g2 : RandomState F) :
  (forall j, j < draws_per_run cfg -> draw g1 j = draw g2 j) ->
  spec_result cfg g1 = spec_result cfg g2.
Proof.
  intros Hd. unfold spec_result, spec_path, spec_capital_after. f_equal.
  - now apply spec_capital_from_agree.
  - apply map_ext_in; intros j Hj. apply in_seq in Hj.
    apply spec_capital_from_agree; intros i Hi. apply Hd.
    unfold draws_per_run. nia.
Qed.

Lemma spec_results_agree (runs : nat) (g1 g2 : RandomState F) :
  (forall j, j < runs * draws_per_run cfg -> draw g1 j = draw g2 j) ->
  spec_results cfg runs g1 = spec_results cfg runs g2.
Proof.
  intros Hd. unfold spec_results.
  apply map_ext_in; intros i Hi. apply in_seq in Hi.
  apply spec_result_agree; intros j Hj.
  rewrite !draw_advance. apply Hd. nia.
Qed.
End Results.

(** The scenario loop of [main] is the simulator with the scenario's win
    rate and premium. *)
Section Scenario.
Context {F : Type} {A : Arith F}.
Variables (cfg : Config F) (win prem : F).

Lemma scenario_trades_spec (t : nat) (c : F) (rng : RandomState F) :
  scenario_trades cfg win prem t c rng
  = trades_loop (scenario_config cfg win prem) t c rng.
Proof.
  revert c rng; induction t as [|t IH]; intros c rng.
  - reflexivity.
  - cbn [scenario_trades trades_loop]. rewrite random_draw. apply IH.
Qed.

Lemma scenario_months_spec (m : nat) (c : F) (rng : RandomState F) :
  scenario_months cfg win prem m c rng
  = (spec_capital_from (scenario_config cfg win prem) c rng
       (m * trades_per_month cfg),
     advance (m * trades_per_month cfg) rng).
Proof.
  revert c rng; induction m as [|m IH]; intros c rng.
  - cbn. now rewrite advance_0.
  - cbn [scenario_months].
    rewrite scenario_trades_spec, trades_loop_spec, IH.
    cbn [trades_per_month scenario_config].
    now rewrite spec_capital_from_add, advance_advance.
Qed.

Lemma scenario_caps_spec (r : nat) (caps : list F) (rng : RandomState F) :
  scenario_caps cfg win prem r caps rng
  = (caps ++ map fst (spec_results (scenario_config cfg win prem) r rng),
     advance (r * draws_per_run cfg) rng).
Proof.
  revert caps rng; induction r as [|r IH]; intros caps rng.
  - cbn. now rewrite app_nil_r, advance_0.
  - cbn [scenario_caps]. rewrite scenario_months_spec, IH.
    fold (draws_per_run cfg). rewrite advance_advance, <- app_assoc.
    unfold spec_results. cbn [app seq map].
    rewrite <- seq_shift, !map_map, advance_0.
    do 3 f_equal.
    apply map_ext; intros i. rewrite advance_advance. reflexivity.
Qed.
End Scenario.

End SimulatorFacts.

(** *** Chains *)

Lemma chain_map_seq {F : Type} (rel : F -> F -> bool) (g : nat -> F) :
  (forall j, rel (g j) (g (S j)) = true) ->
  forall n s,
    CompleteBacktest.chain rel (g s) (map (fun j => g (S j)) (seq s n)) = true.
Proof.
  intros Hg. induction n as [|n IH]; intros s.
  - reflexivity.
  - cbn [seq map CompleteBacktest.chain]. now rewrite Hg, IH.
Qed.

(** *** Exact arithmetic *)

Module ExactFacts.
Import CompleteBacktest CompleteBacktestFacts.

Lemma Qc_ltb_spec (x y : Qc) : Qc_ltb x y = true <-> (x < y)%Qc.
Proof.
  unfold Qc_ltb. rewrite Qclt_alt.
  destruct (x ?= y)%Qc; split; congruence.
Qed.

Lemma Qc_leb_spec (x y : Qc) : Qc_leb x y = true <-> (x <= y)%Qc.
Proof.
  unfold Qc_leb. rewrite Qcle_alt.
  destruct (x ?= y)%Qc; split; congruence.
Qed.

Lemma Qc_ltb_false (x y : Qc) : Qc_ltb x y = false <-> (y <= x)%Qc.
Proof.
  split; intros H.
  - apply Qcnot_lt_le. intros Hlt. apply Qc_ltb_spec in Hlt. congruence.
  - destruct (Qc_ltb x y) eqn:E; [| reflexivity].
    apply Qc_ltb_spec in E. now apply Qcle_not_lt in H.
Qed.

(** **** Arithmetic that rounds *)
Section Rounded.
Variable rnd : Qc -> Qc.
Hypothesis Hrnd : rounding rnd.
Variable cfg : Config Qc.

Local Abbreviation RA := (rounded_arith rnd).

Lemma rounded_valid_config_in_range :
  valid_config (A:=RA) cfg = true -> in_range cfg.
Proof.
  unfold valid_config. cbn [ltb leb lit rounded_arith].
  rewrite (rnd_0 Hrnd), (rnd_1 Hrnd).
  rewrite !andb_true_iff, !Qc_ltb_spec, !Qc_leb_spec.
  intros [[[[H1 [H2 H3]] [H4 H5]] [H6 H7]] [H8 H9]].
  now constructor.
Qed.

Lemma rounded_unit_draws (rng : RandomState Qc) (k : nat) :
  unit_draws (A:=RA) rng -> (0 <= draw rng k)%Qc /\ (draw rng k < 1)%Qc.
Proof.
  intros Hu. destruct (Hu k) as [H0 H1]. cbn [ltb leb lit rounded_arith] in *.
  rewrite (rnd_0 Hrnd) in H0. rewrite (rnd_1 Hrnd) in H1.
  apply Qc_leb_spec in H0. apply Qc_ltb_spec in H1. now split.
Qed.

Lemma rounded_unit_draws_advance (rng : RandomState Qc) (n : nat) :
  unit_draws (A:=RA) rng -> unit_draws (A:=RA) (advance n rng).
Proof.
  intros Hu k. rewrite draw_advance. apply Hu.
Qed.

Lemma rnd_nonneg (x : Qc) : (0 <= x)%Qc -> (0 <= rnd x)%Qc.
Proof.
  intros Hx. rewrite <- (rnd_0 Hrnd). now apply (rnd_mono Hrnd).
Qed.

Lemma rnd_below (x c : Qc) : rnd c = c -> (x <= c)%Qc -> (rnd x <= c)%Qc.
Proof.
  intros Hc Hx. apply (rnd_mono Hrnd) in Hx. now rewrite Hc in Hx.
Qed.

Lemma rnd_above (x c : Qc) : rnd c = c -> (c <= x)%Qc -> (c <= rnd x)%Qc.
Proof.
  intros Hc Hx. apply (rnd_mono Hrnd) in Hx. now rewrite Hc in Hx.
Qed.

(** The literal [0.3], rounded, is still a fraction. *)
Lemma rounded_loss_multiplier :
  (0 <= rnd (Q2Qc (3 # 10)))%Qc /\ (rnd (Q2Qc (3 # 10)) <= 1)%Qc.
Proof.
  split.
  - apply rnd_nonneg. intros H; discriminate H.
  - rewrite <- (rnd_1 Hrnd). apply (rnd_mono Hrnd). intros H; discriminate H.
Qed.

(** Multiplying a representable amount by a fraction, with rounding, gives
    an amount between 0 and the one multiplied. *)
Lemma rounded_fraction (x p : Qc) :
  rnd x = x -> (0 <= x)%Qc -> (0 <= p)%Qc -> (p <= 1)%Qc ->
  (0 <= rnd (x * p))%Qc /\ (rnd (x * p) <= x)%Qc.
Proof.
  intros Hx H0 Hp0 Hp1. split.
  - apply rnd_nonneg. qc_to_q. nra.
  - apply rnd_below; [exact Hx |]. qc_to_q. nra.
Qed.

Hypothesis Hcfg : in_range cfg.

(** The amount a trade adds or removes is between 0 and the capital. *)
Lemma rounded_stake (c m : Qc) :
  rnd c = c -> (0 <= c)%Qc -> (0 <= m)%Qc -> (m <= 1)%Qc ->
  let d := rnd (rnd (rnd (c * POSITION_SIZE cfg) * PREMIUM cfg) * m) in
  (0 <= d)%Qc /\ (d <= c)%Qc.
Proof.
  destruct Hcfg. intros Hc H0 Hm0 Hm1.
  destruct (@rounded_fraction c (POSITION_SIZE cfg) Hc H0
              (Qclt_le_weak _ _ position_pos0) position_le_2) as [A0 A1].
  destruct (@rounded_fraction (rnd (c * POSITION_SIZE cfg)) (PREMIUM cfg)
              (rnd_idem Hrnd _) A0 (Qclt_le_weak _ _ premium_pos0)
              (Qclt_le_weak _ _ premium_lt_2)) as [B0 B1].
  destruct (@rounded_fraction
              (rnd (rnd (c * POSITION_SIZE cfg) * PREMIUM cfg)) m
              (rnd_idem Hrnd _) B0 Hm0 Hm1) as [C0 C1].
  split; [exact C0 |].
  eapply Qcle_trans; [exact C1 |]. eapply Qcle_trans; [exact B1 | exact A1].
Qed.

Lemma rounded_trade_win (c u : Qc) :
  (u < WIN_RATE cfg)%Qc ->
  spec_trade (A:=RA) cfg c u
  = rnd (c + rnd (rnd (rnd (c * POSITION_SIZE cfg) * PREMIUM cfg)
                  * TAKE_PROFIT cfg))%Qc.
Proof.
  intros Hu. apply Qc_ltb_spec in Hu. unfold spec_trade.
  cbn [ltb add mul rounded_arith]. now rewrite Hu.
Qed.

Lemma rounded_trade_loss (c u : Qc) :
  (WIN_RATE cfg <= u)%Qc ->
  spec_trade (A:=RA) cfg c u
  = rnd (c - rnd (rnd (rnd (c * POSITION_SIZE cfg) * PREMIUM cfg)
                  * rnd (Q2Qc (3 # 10))))%Qc.
Proof.
  intros Hu. apply Qc_ltb_false in Hu. unfold spec_trade.
  cbn [ltb sub mul lit rounded_arith]. now rewrite Hu.
Qed.

Lemma rounded_win_grows (c u : Qc) :
  sound rnd c -> (u < WIN_RATE cfg)%Qc ->
  sound rnd (spec_trade (A:=RA) cfg c u)
  /\ (c <= spec_trade (A:=RA) cfg c u)%Qc.
Proof.
  intros [Hc H0] Hu. rewrite rounded_trade_win by assumption.
  destruct (@rounded_stake c (TAKE_PROFIT cfg)) as [D0 _];
    try assumption; try (destruct Hcfg; auto using Qclt_le_weak).
  assert (Hle : (c <= rnd (c + rnd (rnd (rnd (c * POSITION_SIZE cfg)
                                         * PREMIUM cfg)
                                    * TAKE_PROFIT cfg)))%Qc).
  { apply rnd_above; [exact Hc |]. qc_to_q. lra. }
  repeat split.
  - apply (rnd_idem Hrnd).
  - eapply Qcle_trans; [exact H0 | exact Hle].
  - exact Hle.
Qed.

Lemma rounded_loss_shrinks (c u : Qc) :
  sound rnd c -> (WIN_RATE cfg <= u)%Qc ->
  sound rnd (spec_trade (A:=RA) cfg c u)
  /\ (spec_trade (A:=RA) cfg c u <= c)%Qc.
Proof.
  intros [Hc H0] Hu. rewrite rounded_trade_loss by assumption.
  destruct rounded_loss_multiplier as [M0 M1].
  destruct (@rounded_stake c (rnd (Q2Qc (3 # 10)))) as [D0 D1];
    try assumption.
  repeat split.
  - apply (rnd_idem Hrnd).
  - apply rnd_nonneg. qc_to_q. lra.
  - apply rnd_below; [exact Hc |]. qc_to_q. lra.
Qed.

Lemma rounded_trade_sound (c u : Qc) :
  sound rnd c -> sound rnd (spec_trade (A:=RA) cfg c u).
Proof.
  intros Hc. destruct (Qclt_le_dec u (WIN_RATE cfg)) as [Hu | Hu].
  - now apply rounded_win_grows.
  - now apply rounded_loss_shrinks.
Qed.

Hypothesis Hinit : rnd (INITIAL_CAPITAL cfg) = INITIAL_CAPITAL cfg.

Lemma rounded_capital_sound (rng : RandomState Qc) (k : nat) :
  sound rnd (spec_capital_after (A:=RA) cfg rng k).
Proof.
  induction k as [|k IH].
  - split; [exact Hinit |]. destruct Hcfg. now apply Qclt_le_weak.
  - unfold spec_capital_after. cbn [spec_capital_from].
    now apply rounded_trade_sound.
Qed.


(** With a win rate of 1 every trade wins, with a win rate of 0 every trade
    loses, as long as the draws are in [0,1). *)
Lemma all_wins_step (rng : RandomState Qc) (k : nat) :
  WIN_RATE cfg = 1%Qc -> unit_draws (A:=RA) rng ->
  (spec_capital_after (A:=RA) cfg rng k
   <= spec_capital_after (A:=RA) cfg rng (S k))%Qc.
Proof.
  intros Hw Hu. unfold spec_capital_after at 2. cbn [spec_capital_from].
  apply rounded_win_grows.
  - apply rounded_capital_sound.
  - rewrite Hw. now apply rounded_unit_draws.
Qed.

Lemma all_losses_step (rng : RandomState Qc) (k : nat) :
  WIN_RATE cfg = 0%Qc -> unit_draws (A:=RA) rng ->
  (spec_capital_after (A:=RA) cfg rng (S k)
   <= spec_capital_after (A:=RA) cfg rng k)%Qc.
Proof.
  intros Hw Hu. unfold spec_capital_after at 1. cbn [spec_capital_from].
  apply rounded_loss_shrinks.
  - apply rounded_capital_sound.
  - rewrite Hw. now apply rounded_unit_draws.
Qed.

Lemma all_wins_later (rng : RandomState Qc) (a b : nat) :
  WIN_RATE cfg = 1%Qc -> unit_draws (A:=RA) rng ->
  (spec_capital_after (A:=RA) cfg rng a
   <= spec_capital_after (A:=RA) cfg rng (b + a))%Qc.
Proof.
  intros Hw Hu. induction b as [|b IH].
  - apply Qcle_refl.
  - eapply Qcle_trans; [exact IH |]. now apply all_wins_step.
Qed.

Lemma all_losses_later (rng : RandomState Qc) (a b : nat) :
  WIN_RATE cfg = 0%Qc -> unit_draws (A:=RA) rng ->
  (spec_capital_after (A:=RA) cfg rng (b + a)
   <= spec_capital_after (A:=RA) cfg rng a)%Qc.
Proof.
  intros Hw Hu. induction b as [|b IH].
  - apply Qcle_refl.
  - eapply Qcle_trans; [| exact IH]. now apply all_losses_step.
Qed.

Lemma all_wins_path (rng : RandomState Qc) :
  WIN_RATE cfg = 1%Qc -> unit_draws (A:=RA) rng ->
  non_decreasing (A:=RA) (INITIAL_CAPITAL cfg) (spec_path (A:=RA) cfg rng)
  = true.
Proof.
  intros Hw Hu. unfold non_decreasing, spec_path.
  refine (chain_map_seq leb
            (fun j => spec_capital_after (A:=RA) cfg rng
                        (j * trades_per_month cfg))
            _ (months cfg) 0).
  intros j. cbn [leb rounded_arith]. apply Qc_leb_spec.
  now apply all_wins_later.
Qed.

Lemma all_losses_path (rng : RandomState Qc) :
  WIN_RATE cfg = 0%Qc -> unit_draws (A:=RA) rng ->
  non_increasing (A:=RA) (INITIAL_CAPITAL cfg) (spec_path (A:=RA) cfg rng)
  = true.
Proof.
  intros Hw Hu. unfold non_increasing, spec_path.
  refine (chain_map_seq (fun a b => leb b a)
            (fun j => spec_capital_after (A:=RA) cfg rng
                        (j * trades_per_month cfg))
            _ (months cfg) 0).
  intros j. cbn [leb rounded_arith]. apply Qc_leb_spec.
  now apply all_losses_later.
Qed.
End Rounded.

(** Exact arithmetic rounds with the identity. *)
Lemma exact_rounding : rounding (fun x => x).
Proof.
  constructor; auto.
Qed.

(** Rounding down to a fixed number of binary digits is a rounding too. *)
Lemma round_down_this (bits : positive) (x : Qc) :
  (this (round_down bits x)
   == Qfloor (x * inject_Z (2 ^ Zpos bits)) # 2 ^ bits)%Q.
Proof. unfold round_down, Q2Qc; cbn [this]. apply Qred_correct. Qed.

Lemma round_down_fixed (bits : positive) (n : Z) :
  round_down bits (Q2Qc (n # 2 ^ bits)) = Q2Qc (n # 2 ^ bits).
Proof.
  unfold round_down. apply Q2Qc_eq_iff.
  replace (Qfloor (Q2Qc (n # 2 ^ bits) * inject_Z (2 ^ Z.pos bits))) with n;
    [reflexivity |].
  rewrite <- (Qfloor_Z n) at 1. apply Qfloor_comp.
  unfold Q2Qc; cbn [this]. rewrite Qred_correct.
  unfold Qeq, Qmult, inject_Z; cbn [Qnum Qden].
  rewrite Pos.mul_1_r, Pos2Z.inj_pow. ring.
Qed.

Lemma round_down_rounding (bits : positive) : rounding (round_down bits).
Proof.
  constructor.
  - intros x y Hxy. unfold Qcle. rewrite !round_down_this.
    unfold Qle; cbn [Qnum Qden]. apply Z.mul_le_mono_nonneg_r; [lia |].
    apply Qfloor_resp_le. apply Qmult_le_compat_r; [exact Hxy |].
    unfold Qle, inject_Z; cbn [Qnum Qden].
    assert (0 < 2 ^ Z.pos bits)%Z by (apply Z.pow_pos_nonneg; lia). lia.
  - intros x. unfold round_down at 2. apply round_down_fixed.
  - replace 0%Qc with (Q2Qc (0 # 2 ^ bits)) by (now apply Q2Qc_eq_iff).
    apply round_down_fixed.
  - replace 1%Qc with (Q2Qc (Z.pos (2 ^ bits) # 2 ^ bits)).
    + apply round_down_fixed.
    + apply Q2Qc_eq_iff. unfold Qeq; cbn [Qnum Qden]. lia.
Qed.

(** **** Exact arithmetic *)
Section ExactSimulator.
Variable cfg : Config Qc.

Lemma valid_config_in_range : valid_config cfg = true -> in_range cfg.
Proof. apply (rounded_valid_config_in_range exact_rounding). Qed.

(** The two branches of a trade. *)
Lemma spec_trade_cases (c u : Qc) :
  spec_trade cfg c u
  = (c + c * POSITION_SIZE cfg * PREMIUM cfg * TAKE_PROFIT cfg)%Qc
  \/ spec_trade cfg c u
     = (c - c * POSITION_SIZE cfg * PREMIUM cfg * Q2Qc (3 # 10))%Qc.
Proof.
  unfold spec_trade. cbn [ltb add sub mul lit exact_arith].
  destruct (Qc_ltb u (WIN_RATE cfg)); auto.
Qed.

(** The order properties of rounded arithmetic, read in exact arithmetic. *)
Lemma exact_monotone_paths (rng : RandomState Qc) :
  valid_config cfg = true -> unit_draws rng ->
  (WIN_RATE cfg = 1%Qc ->
   non_decreasing (INITIAL_CAPITAL cfg) (spec_path cfg rng) = true)
  /\ (WIN_RATE cfg = 0%Qc ->
      non_increasing (INITIAL_CAPITAL cfg) (spec_path cfg rng) = true).
Proof.
  intros Hv Hu. apply valid_config_in_range in Hv. split; intros Hw.
  - exact (@all_wins_path _ exact_rounding cfg Hv eq_refl rng Hw Hu).
  - exact (@all_losses_path _ exact_rounding cfg Hv eq_refl rng Hw Hu).
Qed.

Hypothesis Hcfg : in_range cfg.

(** A trade leaves a positive capital positive, whatever is drawn. *)
Lemma spec_trade_positive (c u : Qc) :
  (0 < c)%Qc -> (0 < spec_trade cfg c u)%Qc.
Proof.
  destruct Hcfg. intros Hc.
  destruct (spec_trade_cases c u) as [-> | ->]; qc_to_q.
  - assert (0 < c * POSITION_SIZE cfg)%Q by nra.
    assert (0 < c * POSITION_SIZE cfg * PREMIUM cfg)%Q by nra.
    nra.
  - assert (0 < c * POSITION_SIZE cfg)%Q by nra.
    assert (c * POSITION_SIZE cfg <= c)%Q by nra.
    assert (0 < c * POSITION_SIZE cfg * PREMIUM cfg)%Q by nra.
    assert (c * POSITION_SIZE cfg * PREMIUM cfg <= c)%Q by nra.
    nra.
Qed.

Lemma spec_capital_after_positive (rng : RandomState Qc) (k : nat) :
  (0 < spec_capital_after cfg rng k)%Qc.
Proof.
  induction k as [|k IH].
  - now destruct Hcfg.
  - unfold spec_capital_after. cbn [spec_capital_from].
    now apply spec_trade_positive.
Qed.
End ExactSimulator.

(** Scaling the capital scales a trade, hence a run. *)
Section Scaling.
Variables (cfg : Config Qc) (l : Qc).

Lemma spec_trade_scale (c u : Qc) :
  spec_trade (scaled_config cfg l) (l * c)%Qc u = (l * spec_trade cfg c u)%Qc.
Proof.
  unfold spec_trade, scaled_config.
  cbn [WIN_RATE POSITION_SIZE PREMIUM TAKE_PROFIT with_initial_capital].
  destruct (ltb u (WIN_RATE cfg)); cbn [add sub mul lit exact_arith]; ring.
Qed.

Lemma spec_capital_from_scale (c : Qc) (rng : RandomState Qc) (k : nat) :
  spec_capital_from (scaled_config cfg l) (l * c)%Qc rng k
  = (l * spec_capital_from cfg c rng k)%Qc.
Proof.
  induction k as [|k IH].
  - reflexivity.
  - cbn [spec_capital_from]. now rewrite IH, spec_trade_scale.
Qed.

Lemma spec_result_scale (rng : RandomState Qc) :
  spec_result (scaled_config cfg l) rng = scale_result l (spec_result cfg rng).
Proof.
  unfold spec_result, scale_result, spec_path, spec_capital_after.
  cbn [fst snd]. f_equal.
  - apply spec_capital_from_scale.
  - rewrite map_map. apply map_ext; intros j. apply spec_capital_from_scale.
Qed.

Lemma spec_results_scale (runs : nat) (rng : RandomState Qc) :
  spec_results (scaled_config cfg l) runs rng
  = map (scale_result l) (spec_results cfg runs rng).
Proof.
  unfold spec_results. rewrite map_map.
  apply map_ext; intros i. apply spec_result_scale.
Qed.
End Scaling.

End ExactFacts.

(** *** Expected final capital *)

Module ExpectationFacts.
Import CompleteBacktest CompleteBacktestFacts SimulatorFacts ExactFacts.

Lemma Qc_of_nat_S (n : nat) : Qc_of_nat (S n) = (1 + Qc_of_nat n)%Qc.
Proof.
  unfold Qc_of_nat. apply Qc_is_canon. qc_to_q.
  rewrite Nat2Z.inj_succ. unfold Qeq, Qplus; cbn [Qnum Qden]. lia.
Qed.

Lemma Qc_of_nat_add (a b : nat) :
  Qc_of_nat (a + b) = (Qc_of_nat a + Qc_of_nat b)%Qc.
Proof.
  induction a as [|a IH]; cbn [Nat.add].
  - change (Qc_of_nat 0) with 0%Qc. ring.
  - rewrite !Qc_of_nat_S, IH. ring.
Qed.

Lemma Qc_of_nat_mul (a b : nat) :
  Qc_of_nat (a * b) = (Qc_of_nat a * Qc_of_nat b)%Qc.
Proof.
  induction a as [|a IH]; cbn [Nat.mul].
  - change (Qc_of_nat 0) with 0%Qc. ring.
  - rewrite Qc_of_nat_add, Qc_of_nat_S, IH. ring.
Qed.

Lemma Qc_of_nat_S_neq (n : nat) : Qc_of_nat (S n) <> 0%Qc.
Proof.
  unfold Qc_of_nat. intros H. apply Q2Qc_eq_iff in H.
  unfold Qeq in H; cbn [Qnum Qden] in H. lia.
Qed.

(** Powers can be computed in [Q], without reducing the fractions. *)
Lemma Qcpower_Qpower (q : Qc) (n : nat) :
  (this (q ^ n)%Qc == this q ^ Z.of_nat n)%Q.
Proof.
  induction n as [|n IH].
  - reflexivity.
  - cbn [Qcpower]. unfold Qcmult, Q2Qc; cbn [this].
    rewrite Qred_correct, IH, Nat2Z.inj_succ, <- Z.add_1_l.
    rewrite Qpower_plus' by lia. now rewrite Qpower_1_r.
Qed.

Lemma total_cons (x : Qc) (l : list Qc) : total (x :: l) = (x + total l)%Qc.
Proof. reflexivity. Qed.

Lemma total_app (l1 l2 : list Qc) :
  total (l1 ++ l2) = (total l1 + total l2)%Qc.
Proof.
  induction l1 as [|x l1 IH]; cbn [app].
  - change (total []) with 0%Qc. ring.
  - rewrite !total_cons, IH. ring.
Qed.

Lemma total_const {B : Type} (h : B -> Qc) (a : Qc) (l : list B) :
  (forall k, In k l -> h k = a) ->
  total (map h l) = (Qc_of_nat (length l) * a)%Qc.
Proof.
  induction l as [|x l IH]; intros Hh; cbn [map length].
  - change (total []) with 0%Qc. change (Qc_of_nat 0) with 0%Qc. ring.
  - rewrite total_cons, Qc_of_nat_S, IH, Hh.
    + ring.
    + now left.
    + intros k Hk. apply Hh. now right.
Qed.

Lemma total_scale (a : Qc) (h : Qc -> Qc) (l : list Qc) :
  total (map (fun u => a * h u)%Qc l) = (a * total (map h l))%Qc.
Proof.
  induction l as [|u l IH]; cbn [map].
  - change (total []) with 0%Qc. ring.
  - rewrite !total_cons, IH. ring.
Qed.

Lemma mean_scale (a : Qc) (h : Qc -> Qc) (l : list Qc) :
  mean (map (fun u => a * h u)%Qc l) = (a * mean (map h l))%Qc.
Proof.
  unfold mean. rewrite total_scale, !length_map. unfold Qcdiv. ring.
Qed.

Lemma mean_over_draws_ext (N n : nat) (f g : list Qc -> Qc) :
  (forall us, length us = n -> f us = g us) ->
  mean_over_draws N n f = mean_over_draws N n g.
Proof.
  revert f g; induction n as [|n IH]; intros f g Hfg.
  - cbn. now apply Hfg.
  - cbn [mean_over_draws]. f_equal. apply map_ext; intros u.
    apply IH. intros us Hus. apply Hfg. cbn [length]. now rewrite Hus.
Qed.

Section OneRun.
Variable cfg : Config Qc.

Lemma spec_trade_growth (c u : Qc) :
  spec_trade cfg c u = (c * growth cfg u)%Qc.
Proof.
  unfold spec_trade, growth. cbn [ltb add sub mul lit exact_arith].
  destruct (Qc_ltb u (WIN_RATE cfg)); ring.
Qed.

(** The draws replayed from a list are folded from left to right. *)
Lemma spec_capital_from_replay (c d : Qc) (us : list Qc) :
  spec_capital_from cfg c (replay us d) (length us)
  = fold_left (spec_trade cfg) us c.
Proof.
  induction us as [|u us IH] using rev_ind.
  - reflexivity.
  - rewrite length_app, Nat.add_1_r, fold_left_app.
    cbn [spec_capital_from fold_left]. rewrite <- IH. f_equal.
    + apply spec_capital_from_agree. intros j Hj.
      rewrite !draw_replay. now apply app_nth1.
    + rewrite draw_replay. apply nth_middle.
Qed.

Lemma final_capital_fold (us : list Qc) :
  length us = draws_per_run cfg ->
  final_capital cfg us = fold_left (spec_trade cfg) us (INITIAL_CAPITAL cfg).
Proof.
  intros Hus. unfold final_capital. rewrite one_run_spec.
  cbn [fst spec_result]. unfold spec_capital_after.
  rewrite <- Hus. apply spec_capital_from_replay.
Qed.

(** Each trade multiplies the expected capital by the mean growth factor. *)
Lemma mean_over_draws_fold (N n : nat) (c : Qc) :
  mean_over_draws N n (fun us => fold_left (spec_trade cfg) us c)
  = (c * mean (map (growth cfg) (grid N)) ^ n)%Qc.
Proof.
  revert c; induction n as [|n IH]; intros c.
  - cbn. ring.
  - cbn [mean_over_draws fold_left Qcpower].
    rewrite (map_ext _ (fun u => (c * mean (map (growth cfg) (grid N)) ^ n)
                                 * growth cfg u)%Qc).
    + rewrite mean_scale. ring.
    + intros u. rewrite IH, spec_trade_growth. ring.
Qed.

Lemma expected_final_capital_closed (N : nat) :
  expected_final_capital N cfg
  = (INITIAL_CAPITAL cfg
     * mean (map (growth cfg) (grid N)) ^ draws_per_run cfg)%Qc.
Proof.
  unfold expected_final_capital.
  rewrite (@mean_over_draws_ext N (draws_per_run cfg) _
             (fun us => fold_left (spec_trade cfg) us (INITIAL_CAPITAL cfg))).
  - apply mean_over_draws_fold.
  - apply final_capital_fold.
Qed.
End OneRun.

(** With the constants of the script, 17 of 20 equally likely draws win. *)
Lemma grid_point_wins (k M : nat) :
  Qc_ltb (Q2Qc (Z.of_nat k # Pos.of_nat (20 * S M))) (Q2Qc (85 # 100))
  = (k <? 17 * S M).
Proof.
  apply eq_true_iff_eq. rewrite Qc_ltb_spec, Nat.ltb_lt.
  unfold Qclt, Q2Qc; cbn [this]. rewrite !Qred_correct.
  unfold Qlt; cbn [Qnum Qden].
  replace (Z.pos (Pos.of_nat (20 * S M))) with (Z.of_nat (20 * S M)).
  - lia.
  - destruct (20 * S M) eqn:E; [lia |]. rewrite <- Pos.of_nat_succ. lia.
Qed.

Lemma source_growth_mean (M : nat) :
  mean (map (growth source_config) (grid (20 * S M))) = Q2Qc (4019 # 4000).
Proof.
  unfold grid. rewrite map_map.
  rewrite (map_ext _ (fun k => if k <? 17 * S M
                               then Q2Qc (161 # 160) else Q2Qc (797 # 800))).
  2:{ intros k. unfold growth. cbn [WIN_RATE source_config lit exact_arith].
      rewrite grid_point_wins.
      destruct (k <? 17 * S M); apply Qc_is_canon; reflexivity. }
  unfold mean. rewrite length_map, length_seq.
  replace (20 * S M) with (17 * S M + 3 * S M) at 1 by lia.
  rewrite seq_app, map_app, total_app.
  rewrite (@total_const _ _ (Q2Qc (161 # 160))),
          (@total_const _ _ (Q2Qc (797 # 800))).
  - rewrite !length_seq, !Qc_of_nat_mul.
    pose proof (@Qc_of_nat_S_neq M) as HM.
    set (x := Qc_of_nat (S M)) in *.
    assert (E : (Qc_of_nat 17 * Q2Qc (161 # 160)
                 + Qc_of_nat 3 * Q2Qc (797 # 800))%Qc
                = (Q2Qc (4019 # 4000) * Qc_of_nat 20)%Qc)
      by (apply Qc_is_canon; reflexivity).
    assert (H20 : Qc_of_nat 20 <> 0%Qc) by apply Qc_of_nat_S_neq.
    replace (Qc_of_nat 17 * x * Q2Qc (161 # 160)
             + Qc_of_nat 3 * x * Q2Qc (797 # 800))%Qc
      with (x * (Qc_of_nat 17 * Q2Qc (161 # 160)
                 + Qc_of_nat 3 * Q2Qc (797 # 800)))%Qc by ring.
    rewrite E. field. now split.
  - intros k Hk. apply in_seq in Hk.
    destruct (Nat.ltb_spec k (17 * S M)); [lia | reflexivity].
  - intros k Hk. apply in_seq in Hk.
    destruct (Nat.ltb_spec k (17 * S M)); [reflexivity | lia].
Qed.

Lemma source_expected_final_capital (M : nat) :
  expected_final_capital (20 * S M) source_config
  = (Q2Qc (50000 # 1) * Q2Qc (4019 # 4000) ^ 144)%Qc.
Proof.
  rewrite expected_final_capital_closed, source_growth_mean. reflexivity.
Qed.

End ExpectationFacts.

(** *** The script in binary64

    The model evaluated on the constants of the script, in the arithmetic
    the script runs on. *)

Example binary64_literals :
  float_lit (3 # 10) = 0.3%float
  /\ float_lit (85 # 100) = 0.85%float
  /\ float_lit (5 # 100) = 0.05%float
  /\ float_lit (25 # 100) = 0.25%float
  /\ float_lit (50000 # 1) = 50000%float.
Proof. repeat split. Qed.

(** Every draw below [WIN_RATE]: 144 winning trades. *)
Example binary64_all_wins :
  let res := fst (CompleteBacktest.one_run (F:=float)
                    CompleteBacktest.source_config (replay [] 0%float)) in
  fst res = 122636.1902422017%float
  /\ nth 0 (snd res) 0%float = 51261.767654418945%float
  /\ CompleteBacktest.non_decreasing 50000%float (snd res) = true.
Proof. vm_compute. repeat split. Qed.

(** Every draw above [WIN_RATE]: 144 losing trades, and a positive capital
    all along. *)
Example binary64_all_losses :
  let res := fst (CompleteBacktest.one_run (F:=float)
                    CompleteBacktest.source_config (replay [] 0.9%float)) in
  fst res = 29107.852031393293%float
  /\ CompleteBacktest.non_increasing 50000%float (snd res) = true
  /\ forallb (PrimFloat.ltb 0%float) (snd res) = true.
Proof. vm_compute. repeat split. Qed.

(** *** Position sizing *)

Section OptionSellingFacts.
Context {F : Type} {A : Arith F} {R : Sqrt F}.

Lemma day_sized_on_capital (closes : list F) (st : OptionSelling.LoopState)
    (i : nat) :
  OptionSelling.sized_on_capital st ->
  OptionSelling.sized_on_capital (OptionSelling.day closes st i).
Proof.
  unfold OptionSelling.sized_on_capital, OptionSelling.day. intros Hst.
  destruct (leb _ _); [exact Hst |].
  destruct (OptionSelling.uniform _ _ _) as [iv rng1].
  destruct (ltb _ OptionSelling.MIN_RETURN); [exact Hst |].
  destruct (random rng1) as [outcome rng2]. reflexivity.
Qed.

Lemma days_sized_on_capital (closes : list F) (l : list nat)
    (st : OptionSelling.LoopState) :
  OptionSelling.sized_on_capital st ->
  OptionSelling.sized_on_capital (fold_left (OptionSelling.day closes) l st).
Proof.
  revert st; induction l as [|i l IH]; intros st Hst.
  - exact Hst.
  - cbn [fold_left]. apply IH. now apply day_sized_on_capital.
Qed.

(** From a state whose position value is the capital times [POSITION_SIZE],
    the body of the loop does what the reading of the specification does. *)
Lemma day_spec_day (closes : list F) (st : OptionSelling.LoopState)
    (i : nat) :
  OptionSelling.sized_on_capital st ->
  OptionSelling.day closes st i = OptionSelling.spec_day closes st i.
Proof.
  unfold OptionSelling.sized_on_capital. intros Hst.
  unfold OptionSelling.day, OptionSelling.spec_day, OptionSelling.uniform.
  destruct (leb _ _); [reflexivity |].
  rewrite random_draw.
  change (OptionSelling.premium_pct (draw (OptionSelling.rng st) 0))
    with (mul (mul (add (lit (4 # 10))
                      (mul (sub (lit (8 # 10)) (lit (4 # 10)))
                           (draw (OptionSelling.rng st) 0)))
                 (sqrt (div (lit (Z.of_nat OptionSelling.DTE_TARGET # 1))
                            (lit (365 # 1)))))
              (lit (3 # 10))).
  destruct (ltb _ OptionSelling.MIN_RETURN); [reflexivity |].
  rewrite random_draw, draw_advance, advance_advance, Hst.
  reflexivity.
Qed.

Lemma days_spec_day (closes : list F) (l : list nat)
    (st : OptionSelling.LoopState) :
  OptionSelling.sized_on_capital st ->
  fold_left (OptionSelling.day closes) l st
  = fold_left (OptionSelling.spec_day closes) l st.
Proof.
  revert st; induction l as [|i l IH]; intros st Hst; [reflexivity |].
  cbn [fold_left]. rewrite <- (day_spec_day closes i Hst).
  apply IH. now apply day_sized_on_capital.
Qed.

(** The trades the loop adds over the days [l]: each is the trade of its
    day on the position [capital * POSITION_SIZE], for the capital reached
    by the trades recorded before it. *)
Lemma days_trades_on_capital (closes : list F) (l : list nat)
    (st : OptionSelling.LoopState) :
  OptionSelling.sized_on_capital st ->
  exists ts,
    OptionSelling.trades (fold_left (OptionSelling.day closes) l st)
    = OptionSelling.trades st ++ ts
    /\ forall j t,
         nth_error ts j = Some t ->
         exists k,
           t = OptionSelling.trade_on
                 (mul (fold_left add
                         (map OptionSelling.profit (firstn j ts))
                         (OptionSelling.capital st))
                      OptionSelling.POSITION_SIZE)
                 (OptionSelling.date t)
                 (draw (OptionSelling.rng st) k)
                 (draw (OptionSelling.rng st) (S k)).
Proof.
  revert st; induction l as [|i l IH]; intros st Hst.
  - exists []. split; [now rewrite app_nil_r |].
    intros [|j] t H; discriminate H.
  - cbn [fold_left].
    assert (Hnext := day_sized_on_capital closes i Hst).
    destruct (IH _ Hnext) as [ts [Ht Hts]].
    rewrite (day_spec_day closes i Hst) in Ht, Hts |- *.
    unfold OptionSelling.spec_day in Ht, Hts |- *.
    destruct (leb _ _); [exists ts; now split |].
    destruct (ltb _ OptionSelling.MIN_RETURN).
    + cbn [OptionSelling.trades OptionSelling.capital OptionSelling.rng]
        in Ht, Hts.
      exists ts. split; [exact Ht |].
      intros j t Hj. destruct (Hts j t Hj) as [k Hk].
      exists (1 + k). rewrite !draw_advance in Hk.
      rewrite Nat.add_succ_r in Hk. exact Hk.
    + cbn [OptionSelling.trades OptionSelling.capital OptionSelling.rng]
        in Ht, Hts.
      set (t0 := OptionSelling.trade_on
                   (mul (OptionSelling.capital st)
                        OptionSelling.POSITION_SIZE) i
                   (draw (OptionSelling.rng st) 0)
                   (draw (OptionSelling.rng st) 1)) in *.
      exists (t0 :: ts). split; [now rewrite Ht, <- app_assoc |].
      intros [|j] t Hj.
      * injection Hj as <-. exists 0. reflexivity.
      * cbn [nth_error] in Hj. destruct (Hts j t Hj) as [k Hk].
        exists (2 + k). rewrite !draw_advance in Hk.
        rewrite Nat.add_succ_r in Hk. exact Hk.
Qed.
End OptionSellingFacts.

(** ** The claims of the specification *)

Import CompleteBacktest CompleteBacktestFacts SimulatorFacts ExactFacts.
Import ExpectationFacts.

(** C1.  Every trade of every month of every run follows the rule of
    section 4.1: with [u] the value drawn for the trade, a capital [c]
    becomes [c + c * POSITION_SIZE * PREMIUM * TAKE_PROFIT] when
    [u < WIN_RATE] and [c - c * POSITION_SIZE * PREMIUM * 0.3] otherwise.
    The results [run_simulation] returns are those of the trade-by-trade
    reading, in which the capital after trade [k + 1] is the rule applied to
    the capital after trade [k] and the [k]-th draw of the run; the scenario
    loop of [main] computes the final capitals of the same runs for the
    scenario's win rate and premium. *)
Theorem trade_rule_at_every_trade {F : Type} {A : Arith F}
    (cfg : Config F) (rng : RandomState F) :
  (forall k,
      spec_capital_after cfg rng (S k)
      = let c := spec_capital_after cfg rng k in
        if ltb (draw rng k) (WIN_RATE cfg)
        then add c (mul (mul (mul c (POSITION_SIZE cfg)) (PREMIUM cfg))
                      (TAKE_PROFIT cfg))
        else sub c (mul (mul (mul c (POSITION_SIZE cfg)) (PREMIUM cfg))
                      (lit (3 # 10))))
  /\ (forall c u, trade cfg c u = spec_trade cfg c u)
  /\ (forall runs,
         fst (run_simulation cfg runs rng) = spec_results cfg runs rng)
  /\ (forall win prem runs,
         fst (scenario_caps cfg win prem runs [] rng)
         = map fst (spec_results (scenario_config cfg win prem) runs rng)).
Proof.
  repeat split.
  - intros runs. apply results_spec.
  - intros win prem runs. now rewrite scenario_caps_spec.
Qed.




(** In exact arithmetic the capital even stays strictly positive. *)
Lemma exact_capital_positive (cfg : Config Qc) (rng : RandomState Qc)
    (k : nat) :
  valid_config cfg = true -> (0 < spec_capital_after cfg rng k)%Qc.
Proof.
  intros Hv. apply valid_config_in_range in Hv.
  now apply spec_capital_after_positive.
Qed.

(** The generator reaches the results only through the values it gives to
    the call: a call made in any generator state whose next
    [runs * months * trades_per_month] values are those that follow
    [np.random.seed(s)] returns the results of the call made right after
    seeding. *)
Lemma results_depend_on_draws {F : Type} {A : Arith F}
    (cfg : Config F) (generator : Z -> nat -> F) (runs : nat) (s : Z)
    (rng : RandomState F) :
  (forall k, k < runs * draws_per_run cfg -> draw rng k = generator s k) ->
  fst (run_simulation cfg runs rng) = simulate cfg generator runs s.
Proof.
  intros Hd. unfold simulate. rewrite !results_spec.
  apply spec_results_agree; intros j Hj.
  rewrite Hd by assumption.
  unfold draw, seed; cbn [stream cursor]. now rewrite Nat.add_0_r.
Qed.

(** C4.  With a win probability of 1 and draws in [0,1), the path of every
    result is non-decreasing from the initial capital on: each month's entry
    is at least the entry of the month before, and the first is at least
    [INITIAL_CAPITAL].  This holds in exact arithmetic and in every
    arithmetic that rounds each result monotonically. *)
Theorem all_wins_non_decreasing (rnd : Qc -> Qc) (cfg : Config Qc)
    (runs : nat) (rng : RandomState Qc) (res : Qc * list Qc) :
  rounding rnd ->
  valid_config (A:=rounded_arith rnd) cfg = true ->
  rnd (INITIAL_CAPITAL cfg) = INITIAL_CAPITAL cfg ->
  WIN_RATE cfg = 1%Qc ->
  unit_draws (A:=rounded_arith rnd) rng ->
  In res (fst (run_simulation (A:=rounded_arith rnd) cfg runs rng)) ->
  non_decreasing (A:=rounded_arith rnd) (INITIAL_CAPITAL cfg) (snd res)
  = true.
Proof.
  intros Hrnd Hv Hinit Hw Hu Hin.
  apply (rounded_valid_config_in_range Hrnd) in Hv.
  apply In_results in Hin. destruct Hin as [i [_ ->]].
  cbn [snd spec_result]. apply all_wins_path; try assumption.
  now apply rounded_unit_draws_advance.
Qed.

Lemma all_wins_non_decreasing_witness :
  let rnd := round_down 20 in
  let cfg := scenario_config
               (with_schedule (source_config (A:=rounded_arith rnd)) 3 2)
               1%Qc (Q2Qc (5 # 100)) in
  let rng := replay [] (Q2Qc (1 # 2)) in
  let res := hd (0%Qc, [])
               (fst (run_simulation (A:=rounded_arith rnd) cfg 2 rng)) in
  rounding rnd
  /\ valid_config (A:=rounded_arith rnd) cfg = true
  /\ rnd (INITIAL_CAPITAL cfg) = INITIAL_CAPITAL cfg
  /\ WIN_RATE cfg = 1%Qc
  /\ unit_draws (A:=rounded_arith rnd) rng
  /\ In res (fst (run_simulation (A:=rounded_arith rnd) cfg 2 rng))
  /\ non_decreasing (A:=rounded_arith rnd) (INITIAL_CAPITAL cfg) (snd res)
     = true.
Proof.
  intros rnd cfg rng res.
  assert (Hrnd : rounding rnd) by apply round_down_rounding.
  assert (Hv : valid_config (A:=rounded_arith rnd) cfg = true)
    by (vm_compute; reflexivity).
  assert (Hinit : rnd (INITIAL_CAPITAL cfg) = INITIAL_CAPITAL cfg)
    by (apply Qc_is_canon; vm_compute; reflexivity).
  assert (Hw : WIN_RATE cfg = 1%Qc) by reflexivity.
  assert (Hu : unit_draws (A:=rounded_arith rnd) rng).
  { intros k. unfold rng. rewrite draw_replay.
    destruct k; split; vm_compute; reflexivity. }
  assert (Hin : In res (fst (run_simulation (A:=rounded_arith rnd)
                               cfg 2 rng)))
    by (vm_compute; left; reflexivity).
  repeat (split; [assumption |]).
  exact (@all_wins_non_decreasing rnd cfg 2 rng res Hrnd Hv Hinit Hw Hu Hin).
Defined.

(** C5.  With a win probability of 0 and draws in [0,1), the path of every
    result is non-increasing from the initial capital on.  This holds in
    exact arithmetic and in every arithmetic that rounds each result
    monotonically. *)
Theorem all_losses_non_increasing (rnd : Qc -> Qc) (cfg : Config Qc)
    (runs : nat) (rng : RandomState Qc) (res : Qc * list Qc) :
  rounding rnd ->
  valid_config (A:=rounded_arith rnd) cfg = true ->
  rnd (INITIAL_CAPITAL cfg) = INITIAL_CAPITAL cfg ->
  WIN_RATE cfg = 0%Qc ->
  unit_draws (A:=rounded_arith rnd) rng ->
  In res (fst (run_simulation (A:=rounded_arith rnd) cfg runs rng)) ->
  non_increasing (A:=rounded_arith rnd) (INITIAL_CAPITAL cfg) (snd res)
  = true.
Proof.
  intros Hrnd Hv Hinit Hw Hu Hin.
  apply (rounded_valid_config_in_range Hrnd) in Hv.
  apply In_results in Hin. destruct Hin as [i [_ ->]].
  cbn [snd spec_result]. apply all_losses_path; try assumption.
  now apply rounded_unit_draws_advance.
Qed.

Lemma all_losses_non_increasing_witness :
  let rnd := round_down 20 in
  let cfg := scenario_config
               (with_schedule (source_config (A:=rounded_arith rnd)) 3 2)
               0%Qc (Q2Qc (5 # 100)) in
  let rng := replay [] (Q2Qc (1 # 2)) in
  let res := hd (0%Qc, [])
               (fst (run_simulation (A:=rounded_arith rnd) cfg 2 rng)) in
  rounding rnd
  /\ valid_config (A:=rounded_arith rnd) cfg = true
  /\ rnd (INITIAL_CAPITAL cfg) = INITIAL_CAPITAL cfg
  /\ WIN_RATE cfg = 0%Qc
  /\ unit_draws (A:=rounded_arith rnd) rng
  /\ In res (fst (run_simulation (A:=rounded_arith rnd) cfg 2 rng))
  /\ non_increasing (A:=rounded_arith rnd) (INITIAL_CAPITAL cfg) (snd res)
     = true.
Proof.
  intros rnd cfg rng res.
  assert (Hrnd : rounding rnd) by apply round_down_rounding.
  assert (Hv : valid_config (A:=rounded_arith rnd) cfg = true)
    by (vm_compute; reflexivity).
  assert (Hinit : rnd (INITIAL_CAPITAL cfg) = INITIAL_CAPITAL cfg)
    by (apply Qc_is_canon; vm_compute; reflexivity).
  assert (Hw : WIN_RATE cfg = 0%Qc) by reflexivity.
  assert (Hu : unit_draws (A:=rounded_arith rnd) rng).
  { intros k. unfold rng. rewrite draw_replay.
    destruct k; split; vm_compute; reflexivity. }
  assert (Hin : In res (fst (run_simulation (A:=rounded_arith rnd)
                               cfg 2 rng)))
    by (vm_compute; left; reflexivity).
  repeat (split; [assumption |]).
  exact (@all_losses_non_increasing rnd cfg 2 rng res Hrnd Hv Hinit Hw Hu Hin).
Defined.

(** C6, as the code has it.  With no trade in a month or no month at all the
    capital never changes: every run ends with the initial capital, and its
    path has one entry per month, each equal to the initial capital.  The
    path is empty only when [months] is 0. *)
Theorem no_trades_keeps_initial_capital {F : Type} {A : Arith F}
    (cfg : Config F) (runs : nat) (rng : RandomState F) (res : F * list F) :
  trades_per_month cfg = 0 \/ months cfg = 0 ->
  In res (fst (run_simulation cfg runs rng)) ->
  fst res = INITIAL_CAPITAL cfg
  /\ length (snd res) = months cfg
  /\ Forall (fun x => x = INITIAL_CAPITAL cfg) (snd res).
Proof.
  intros Hzero Hin. apply In_results in Hin. destruct Hin as [i [_ ->]].
  cbn [fst snd spec_result]. rewrite spec_path_length.
  assert (Hcap : forall g j, j <= months cfg ->
             spec_capital_after cfg g (j * trades_per_month cfg)
             = INITIAL_CAPITAL cfg).
  { intros g j Hj. destruct Hzero as [Ht | Hm].
    - rewrite Ht, Nat.mul_0_r. reflexivity.
    - rewrite Hm in Hj. now replace j with 0 by lia. }
  repeat split.
  - apply Hcap. lia.
  - apply Forall_forall. intros x Hx. unfold spec_path in Hx.
    apply In_map_seq in Hx. destruct Hx as [j [Hj ->]]. apply Hcap. lia.
Qed.

Lemma no_trades_keeps_initial_capital_witness :
  let cfg := with_schedule (source_config (F:=float)) 36 0 in
  let rng := replay [] 0%float in
  let res := hd (0%float, []) (fst (run_simulation cfg 1 rng)) in
  (trades_per_month cfg = 0 \/ months cfg = 0)
  /\ In res (fst (run_simulation cfg 1 rng))
  /\ fst res = INITIAL_CAPITAL cfg
  /\ length (snd res) = months cfg
  /\ Forall (fun x => x = INITIAL_CAPITAL cfg) (snd res).
Proof.
  intros cfg rng res.
  assert (Hz : trades_per_month cfg = 0 \/ months cfg = 0)
    by (left; reflexivity).
  assert (Hin : In res (fst (run_simulation cfg 1 rng)))
    by (vm_compute; left; reflexivity).
  split; [exact Hz |]. split; [exact Hin |].
  exact (no_trades_keeps_initial_capital cfg 1 rng res Hz Hin).
Defined.

(** C6 as the specification states it fails on the path length: with the
    constants of the script and no trade in a month, the path of a run has
    its 36 monthly entries. *)
Lemma zero_trades_path_not_empty :
  let cfg := with_schedule (source_config (F:=float)) 36 0 in
  let results := fst (run_simulation cfg 1 (replay [] 0%float)) in
  trades_per_month cfg = 0
  /\ (exists res, In res results /\ length (snd res) = 36)
  /\ ~ (forall res, In res results ->
                    length (snd res) = 0 /\ fst res = INITIAL_CAPITAL cfg).
Proof.
  intros cfg results.
  assert (Hin : In (hd (0%float, []) results) results)
    by (vm_compute; left; reflexivity).
  split; [reflexivity |]. split.
  - exists (hd (0%float, []) results). split; [exact Hin | reflexivity].
  - intros H. destruct (H _ Hin) as [Hlen _].
    vm_compute in Hlen. discriminate Hlen.
Qed.

(** C7.  The position a trade is sized on is the current capital times
    [POSITION_SIZE]: [trade] settles on [capital * POSITION_SIZE] for the
    capital it is given, and in the results of [run_simulation] the capital
    after trade [k + 1] of a run is settled on the capital after trade [k]
    times [POSITION_SIZE].  It is not a fraction of the initial capital:
    with the constants of the script the second winning trade already gives
    another capital than a trade sized on [INITIAL_CAPITAL * POSITION_SIZE].

    In [simulate_option_sell] too: at every day of the loop the position
    value is the capital of that day times [POSITION_SIZE], and the loop
    reaches the state of the loop that sizes each day's trade on
    [capital * POSITION_SIZE]; every trade it returns is the trade of its
    day on [c * POSITION_SIZE], where [c] is [INITIAL_CAPITAL] plus the
    profits of the trades recorded before it, for two successive values of
    the generator.  Here again the base is not fixed: on a history that
    falls every other day, with every draw 0.5, the first premium is that
    of a position of [INITIAL_CAPITAL * POSITION_SIZE] and the second is
    not. *)
Theorem position_sized_on_current_capital {F : Type} {A : Arith F}
    {R : Sqrt F} (cfg : Config F) (rng : RandomState F) :
  (forall c u, trade cfg c u = settle cfg c (mul c (POSITION_SIZE cfg)) u)
  /\ (forall runs,
         fst (run_simulation cfg runs rng) = spec_results cfg runs rng)
  /\ (forall g k,
         spec_capital_after cfg g (S k)
         = settle cfg (spec_capital_after cfg g k)
             (mul (spec_capital_after cfg g k) (POSITION_SIZE cfg))
             (draw g k))
  /\ (let c1 :=
        trade (source_config (F:=float)) (lit (50000 # 1)) 0%float in
      trade source_config c1 0%float
      <> fixed_base_trade source_config c1 0%float)
  /\ (forall closes n,
         let st := fold_left (OptionSelling.day closes)
                     (firstn n (OptionSelling.days closes))
                     (OptionSelling.start rng) in
         OptionSelling.position_value st
         = mul (OptionSelling.capital st) OptionSelling.POSITION_SIZE)
  /\ (forall closes n,
         fold_left (OptionSelling.day closes)
           (firstn n (OptionSelling.days closes)) (OptionSelling.start rng)
         = fold_left (OptionSelling.spec_day closes)
             (firstn n (OptionSelling.days closes))
             (OptionSelling.start rng))
  /\ (forall closes,
         match OptionSelling.simulate_option_sell closes rng with
         | None => True
         | Some (s, _) =>
             forall j,
               match nth_error (OptionSelling.trades_data s) j with
               | None => True
               | Some t =>
                   let c :=
                     fold_left add
                       (map OptionSelling.profit
                            (firstn j (OptionSelling.trades_data s)))
                       OptionSelling.INITIAL_CAPITAL in
                   exists k,
                     t = OptionSelling.trade_on
                           (mul c OptionSelling.POSITION_SIZE)
                           (OptionSelling.date t)
                           (draw rng k) (draw rng (S k))
               end
         end)
  /\ (let closes := map (fun i => if Nat.even i then 2%float else 1%float)
                        (seq 0 100) in
      let base :=
        mul (mul (OptionSelling.INITIAL_CAPITAL (F:=float))
                 OptionSelling.POSITION_SIZE)
            (OptionSelling.premium_pct 0.5%float) in
      match OptionSelling.simulate_option_sell closes (replay [] 0.5%float)
      with
      | Some (s, _) =>
          match OptionSelling.trades_data s with
          | t1 :: t2 :: _ =>
              OptionSelling.premium t1 = base
              /\ OptionSelling.premium t2 <> base
          | _ => False
          end
      | None => False
      end).
Proof.
  split; [reflexivity |].
  split; [intros runs; apply results_spec |].
  split; [reflexivity |].
  split; [intros c1 H; float_discriminate H |].
  split; [intros closes n st; apply days_sized_on_capital; reflexivity |].
  split; [intros closes n; apply days_spec_day; reflexivity |].
  split.
  - intros closes. unfold OptionSelling.simulate_option_sell.
    destruct (length closes <? 100); [exact I |].
    cbn [OptionSelling.trades_data]. intros j.
    destruct (@days_trades_on_capital F A R closes
                (OptionSelling.days closes) (OptionSelling.start rng)
                eq_refl) as [ts [Ht Hts]].
    cbn [OptionSelling.trades OptionSelling.start app] in Ht.
    rewrite Ht.
    destruct (nth_error ts j) as [t |] eqn:Ej; [| exact I].
    exact (Hts j t Ej).
  - vm_compute. split; [reflexivity |].
    intros H. float_discriminate H.
Qed.

(** C8.  With the constants of the script (50000, 0.25, 0.85, 0.05, 0.50,
    loss multiplier 0.3, 4 trades a month, 36 months) and draws equally
    likely among the points [k / N] of [0,1), [N] a multiple of 20, the
    expected final capital of a run is [50000 * 1.00475 ^ 144], which lies
    between 1.5 and 2.5 times the initial capital. *)
Theorem expected_final_capital_in_range (M : nat) :
  let cfg := source_config (F:=Qc) in
  let expected := expected_final_capital (20 * S M) cfg in
  (Q2Qc (3 # 2) * INITIAL_CAPITAL cfg <= expected)%Qc
  /\ (expected <= Q2Qc (5 # 2) * INITIAL_CAPITAL cfg)%Qc.
Proof.
  intros cfg expected. unfold expected, cfg.
  rewrite source_expected_final_capital.
  unfold Qcle, Qcmult, Q2Qc.
  cbn [this INITIAL_CAPITAL source_config lit exact_arith].
  unfold Q2Qc; cbn [this]. rewrite !Qred_correct, Qcpower_Qpower.
  split; vm_compute; intros H; discriminate H.
Qed.

(** C9, in exact arithmetic.  Multiplying the initial capital by [l > 0]
    multiplies the final capital and every path entry of every run by [l],
    for the same draws. *)
Theorem initial_capital_scales (cfg : Config Qc) (l : Qc) (runs : nat)
    (rng : RandomState Qc) :
  (0 < l)%Qc ->
  INITIAL_CAPITAL (scaled_config cfg l) = (l * INITIAL_CAPITAL cfg)%Qc
  /\ fst (run_simulation (scaled_config cfg l) runs rng)
     = map (scale_result l) (fst (run_simulation cfg runs rng)).
Proof.
  intros _. split; [reflexivity |].
  rewrite !results_spec. apply spec_results_scale.
Qed.

Lemma initial_capital_scales_witness :
  let cfg := source_config (F:=Qc) in
  let rng := replay [Q2Qc (9 # 10)] (Q2Qc (1 # 2)) in
  (0 < Q2Qc 3)%Qc
  /\ INITIAL_CAPITAL (scaled_config cfg (Q2Qc 3))
     = (Q2Qc 3 * INITIAL_CAPITAL cfg)%Qc
  /\ fst (run_simulation (scaled_config cfg (Q2Qc 3)) 2 rng)
     = map (scale_result (Q2Qc 3)) (fst (run_simulation cfg 2 rng)).
Proof.
  intros cfg rng.
  assert (Hl : (0 < Q2Qc 3)%Qc) by reflexivity.
  split; [exact Hl |].
  exact (@initial_capital_scales cfg (Q2Qc 3) 2 rng Hl).
Defined.

(** C9 fails in the binary64 arithmetic of the script, where every operation
    rounds: with the constants of the script and eight winning trades, the
    second monthly entry of the run started from 3 * 50000 is not 3 times the
    entry of the run started from 50000. *)
Lemma scaling_is_inexact_in_binary64 :
  let cfg := source_config (F:=float) in
  let rng := replay [] 0%float in
  fst (run_simulation (scaled_config cfg 3%float) 1 rng)
  <> map (scale_result 3%float) (fst (run_simulation cfg 1 rng)).
Proof.
  intros cfg rng H.
  apply (f_equal (fun l => nth 1 (snd (hd (0%float, []) l)) 0%float)) in H.
  float_discriminate H.
Qed.

(** C10.  [run_simulation] returns one result per run, and when there is at
    least one month the final capital of a result is the last entry of its
    path. *)
Theorem final_capital_is_last_of_path {F : Type} {A : Arith F}
    (cfg : Config F) (runs : nat) (rng : RandomState F) :
  length (fst (run_simulation cfg runs rng)) = runs
  /\ forall res d,
       In res (fst (run_simulation cfg runs rng)) ->
       1 <= months cfg ->
       last (snd res) d = fst res.
Proof.
  split.
  - rewrite results_spec. unfold spec_results.
    now rewrite length_map, length_seq.
  - intros res d Hin Hm. apply In_results in Hin. destruct Hin as [i [_ ->]].
    cbn [fst snd spec_result]. unfold spec_path, draws_per_run.
    destruct (months cfg) as [|m]; [lia |].
    now rewrite last_map_seq.
Qed.

Lemma final_capital_is_last_of_path_witness :
  let cfg := source_config (F:=float) in
  let rng := replay [0.9%float; 0.1%float] 0.5%float in
  let res := hd (0%float, []) (fst (run_simulation cfg 3 rng)) in
  length (fst (run_simulation cfg 3 rng)) = 3
  /\ In res (fst (run_simulation cfg 3 rng))
  /\ 1 <= months cfg
  /\ last (snd res) 0%float = fst res.
Proof.
  intros cfg rng res.
  assert (Hin : In res (fst (run_simulation cfg 3 rng)))
    by (vm_compute; left; reflexivity).
  assert (Hm : 1 <= months cfg) by (vm_compute; lia).
  split; [exact (proj1 (final_capital_is_last_of_path cfg 3 rng)) |].
  split; [exact Hin |]. split; [exact Hm |].
  exact (proj2 (final_capital_is_last_of_path cfg 3 rng) res 0%float Hin Hm).
Defined.

(** ** Further properties of the two scripts *)

(** *** The simulator in exact arithmetic: growth factors *)

Module GrowthFacts.
Import CompleteBacktest CompleteBacktestFacts SimulatorFacts ExactFacts.
Import ExpectationFacts CompleteBacktestMain.

Lemma seq_from (a b : nat) : seq a b = map (Nat.add a) (seq 0 b).
Proof.
  revert a; induction b as [|b IH]; intros a.
  - reflexivity.
  - cbn [seq map]. rewrite Nat.add_0_r. f_equal.
    rewrite IH, <- seq_shift, map_map.
    apply map_ext; intros i. lia.
Qed.

Lemma spec_results_app {F : Type} {A : Arith F} (cfg : Config F)
    (a b : nat) (rng : RandomState F) :
  spec_results cfg (a + b) rng
  = spec_results cfg a rng
    ++ spec_results cfg b (advance (a * draws_per_run cfg) rng).
Proof.
  unfold spec_results. rewrite seq_app, map_app. f_equal.
  cbn [Nat.add]. rewrite seq_from, map_map.
  apply map_ext; intros i.
  now rewrite advance_advance, Nat.mul_add_distr_r.
Qed.

Lemma Qcpower_positive (p : Qc) (n : nat) : (0 < p)%Qc -> (0 < p ^ n)%Qc.
Proof.
  intros Hp. induction n as [|n IH]; cbn [Qcpower].
  - reflexivity.
  - qc_to_q. nra.
Qed.

Lemma Qcpower_ge_1 (p : Qc) (n : nat) : (1 <= p)%Qc -> (1 <= p ^ n)%Qc.
Proof.
  intros Hp. induction n as [|n IH]; cbn [Qcpower].
  - apply Qcle_refl.
  - qc_to_q. nra.
Qed.

Lemma Qcpower_le_1 (p : Qc) (n : nat) :
  (0 <= p)%Qc -> (p <= 1)%Qc -> (0 <= p ^ n)%Qc /\ (p ^ n <= 1)%Qc.
Proof.
  intros H0 H1. induction n as [|n [IHa IHb]]; cbn [Qcpower].
  - split; intros H; discriminate H.
  - qc_to_q. split; nra.
Qed.

Lemma Qcpower_add (p : Qc) (a b : nat) : (p ^ (a + b) = p ^ a * p ^ b)%Qc.
Proof.
  induction a as [|a IH]; cbn [Nat.add Qcpower].
  - ring.
  - rewrite IH. ring.
Qed.

(** More trades widen the range: powers of a factor above 1 grow, powers
    of a factor between 0 and 1 shrink. *)
Lemma Qcpower_grows (p : Qc) (k n : nat) :
  (1 <= p)%Qc -> k <= n -> (p ^ k <= p ^ n)%Qc.
Proof.
  intros Hp Hk. replace n with (k + (n - k)) by lia.
  rewrite Qcpower_add.
  pose proof (Qcpower_ge_1 (n - k) Hp) as H1.
  pose proof (Qcpower_ge_1 k Hp) as H2.
  qc_to_q. nra.
Qed.

Lemma Qcpower_shrinks (p : Qc) (k n : nat) :
  (0 <= p)%Qc -> (p <= 1)%Qc -> k <= n -> (p ^ n <= p ^ k)%Qc.
Proof.
  intros H0 H1 Hk. replace n with (k + (n - k)) by lia.
  rewrite Qcpower_add.
  destruct (Qcpower_le_1 (n - k) H0 H1) as [A0 A1].
  destruct (Qcpower_le_1 k H0 H1) as [B0 B1].
  qc_to_q. nra.
Qed.

Section Factors.
Variable cfg : Config Qc.

Lemma growth_cases (u : Qc) :
  growth cfg u
  = if Qc_ltb u (WIN_RATE cfg) then win_factor cfg else loss_factor cfg.
Proof. reflexivity. Qed.

Lemma wins_le (rng : RandomState Qc) (n : nat) : wins cfg rng n <= n.
Proof.
  induction n as [|n IH]; cbn [wins].
  - lia.
  - destruct (Qc_ltb _ _); lia.
Qed.

(** The capital after [n] trades only depends on how many of them won. *)
Lemma spec_capital_from_wins (c : Qc) (rng : RandomState Qc) (n : nat) :
  spec_capital_from cfg c rng n
  = (c * win_factor cfg ^ wins cfg rng n
       * loss_factor cfg ^ (n - wins cfg rng n))%Qc.
Proof.
  induction n as [|n IH].
  - cbn. ring.
  - cbn [spec_capital_from wins].
    rewrite spec_trade_growth, growth_cases, IH.
    pose proof (wins_le rng n) as Hw.
    destruct (Qc_ltb (draw rng n) (WIN_RATE cfg)).
    + cbn [Nat.add Nat.sub Qcpower]. ring.
    + cbn [Nat.add]. rewrite Nat.sub_succ_l by exact Hw.
      cbn [Qcpower]. ring.
Qed.

Hypothesis Hcfg : in_range cfg.

Lemma factors_in_range :
  (0 < loss_factor cfg)%Qc /\ (loss_factor cfg <= 1)%Qc
  /\ (1 <= win_factor cfg)%Qc.
Proof.
  destruct Hcfg. unfold loss_factor, win_factor. qc_to_q.
  assert (0 < POSITION_SIZE cfg * PREMIUM cfg)%Q by nra.
  assert (POSITION_SIZE cfg * PREMIUM cfg < 1)%Q by nra.
  repeat split; nra.
Qed.

(** With in-range constants, [k] trades leave the capital between the
    result of [k] losses and the result of [k] wins. *)
Lemma capital_between (rng : RandomState Qc) (k : nat) :
  (INITIAL_CAPITAL cfg * loss_factor cfg ^ k
   <= spec_capital_after cfg rng k)%Qc
  /\ (spec_capital_after cfg rng k
      <= INITIAL_CAPITAL cfg * win_factor cfg ^ k)%Qc.
Proof.
  destruct factors_in_range as [L0 [L1 W1]].
  unfold spec_capital_after. rewrite spec_capital_from_wins.
  pose proof (wins_le rng k) as Hw.
  set (w := wins cfg rng k) in *.
  assert (Hc : (0 < INITIAL_CAPITAL cfg)%Qc) by now destruct Hcfg.
  assert (HLk : (loss_factor cfg ^ k <= loss_factor cfg ^ (k - w))%Qc).
  { apply Qcpower_shrinks; [now apply Qclt_le_weak | exact L1 | lia]. }
  assert (HWk : (win_factor cfg ^ w <= win_factor cfg ^ k)%Qc).
  { apply Qcpower_grows; [exact W1 | exact Hw]. }
  pose proof (Qcpower_ge_1 w W1) as HW1.
  destruct (Qcpower_le_1 (k - w) (Qclt_le_weak _ _ L0) L1) as [HL0 HL1].
  pose proof (Qcpower_positive k L0) as HLp.
  qc_to_q. split.
  - assert (this (loss_factor cfg ^ k)
            <= this (win_factor cfg ^ w) * this (loss_factor cfg ^ (k - w)))%Q
      by nra.
    nra.
  - assert (this (win_factor cfg ^ w) * this (loss_factor cfg ^ (k - w))
            <= this (win_factor cfg ^ k))%Q by nra.
    nra.
Qed.

Lemma capital_between_at_most (rng : RandomState Qc) (k n : nat) :
  k <= n ->
  (INITIAL_CAPITAL cfg * loss_factor cfg ^ n
   <= spec_capital_after cfg rng k)%Qc
  /\ (spec_capital_after cfg rng k
      <= INITIAL_CAPITAL cfg * win_factor cfg ^ n)%Qc.
Proof.
  intros Hk. destruct factors_in_range as [L0 [L1 W1]].
  destruct (capital_between rng k) as [Hlo Hhi].
  assert (Hc : (0 < INITIAL_CAPITAL cfg)%Qc) by now destruct Hcfg.
  pose proof (Qcpower_shrinks (Qclt_le_weak _ _ L0) L1 Hk) as HL.
  pose proof (Qcpower_grows W1 Hk) as HW.
  qc_to_q. split; nra.
Qed.
End Factors.

End GrowthFacts.

(** *** Statistics of [main] in exact arithmetic *)

Module MainFacts.
Import CompleteBacktest CompleteBacktestFacts SimulatorFacts ExactFacts.
Import ExpectationFacts CompleteBacktestMain GrowthFacts.

Lemma Qc_of_nat_pos (n : nat) : (0 < Qc_of_nat (S n))%Qc.
Proof.
  unfold Qc_of_nat, Qclt, Q2Qc; cbn [this]. rewrite !Qred_correct.
  unfold Qlt; cbn [Qnum Qden]. lia.
Qed.

Lemma Qcdiv_le_upper (x c b : Qc) :
  (0 < c)%Qc -> (x <= b * c)%Qc -> (x / c <= b)%Qc.
Proof.
  intros Hc Hx. apply Qcmult_lt_0_le_reg_r with (z := c); [exact Hc |].
  replace (x / c * c)%Qc with x; [exact Hx |].
  field. intros H. rewrite H in Hc. discriminate Hc.
Qed.

Lemma total_le (l : list Qc) (b : Qc) :
  (forall x, In x l -> (x <= b)%Qc) ->
  (total l <= b * Qc_of_nat (length l))%Qc.
Proof.
  induction l as [|x l IH]; intros Hb.
  - change (total []) with 0%Qc. change (Qc_of_nat (length [])) with 0%Qc.
    rewrite Qcmult_0_r. apply Qcle_refl.
  - cbn [length]. rewrite total_cons, Qc_of_nat_S.
    assert (Hx : (x <= b)%Qc) by (apply Hb; now left).
    assert (Hl : (total l <= b * Qc_of_nat (length l))%Qc)
      by (apply IH; intros y Hy; apply Hb; now right).
    qc_to_q. nra.
Qed.

(** The mean of a non-empty list is at most any bound of its items. *)
Lemma mean_le (l : list Qc) (b : Qc) :
  l <> [] -> (forall x, In x l -> (x <= b)%Qc) -> (mean l <= b)%Qc.
Proof.
  intros Hl Hb. unfold mean. destruct l as [|x l]; [congruence |].
  apply Qcdiv_le_upper; [apply Qc_of_nat_pos |]. now apply total_le.
Qed.

Lemma total_affine (a b : Qc) (l : list Qc) :
  total (map (fun x => a * x + b)%Qc l)
  = (a * total l + Qc_of_nat (length l) * b)%Qc.
Proof.
  induction l as [|x l IH]; cbn [map length].
  - change (total []) with 0%Qc. change (Qc_of_nat 0) with 0%Qc. ring.
  - rewrite !total_cons, IH, Qc_of_nat_S. ring.
Qed.

Lemma mean_affine (a b : Qc) (l : list Qc) :
  l <> [] -> mean (map (fun x => a * x + b)%Qc l) = (a * mean l + b)%Qc.
Proof.
  intros Hl. unfold mean. rewrite total_affine, length_map.
  destruct l as [|x l]; [congruence |].
  field. apply Qc_of_nat_S_neq.
Qed.

Section Returns.
Variable cfg : Config Qc.

Lemma percent_return_affine (capital : Qc) :
  percent_return cfg capital
  = (/ INITIAL_CAPITAL cfg * Q2Qc (100 # 1) * capital
     + - (INITIAL_CAPITAL cfg * / INITIAL_CAPITAL cfg * Q2Qc (100 # 1)))%Qc.
Proof.
  unfold percent_return. cbn [mul div sub lit exact_arith].
  unfold Qcdiv. ring.
Qed.

Lemma percent_return_le (capital p : Qc) :
  (0 < INITIAL_CAPITAL cfg)%Qc ->
  (capital <= INITIAL_CAPITAL cfg * p)%Qc ->
  (percent_return cfg capital <= (p - 1) * Q2Qc (100 # 1))%Qc.
Proof.
  intros Hc Hcap. unfold percent_return. cbn [mul div sub lit exact_arith].
  assert (H : ((capital - INITIAL_CAPITAL cfg) / INITIAL_CAPITAL cfg
               <= p - 1)%Qc).
  { apply Qcdiv_le_upper; [exact Hc |]. qc_to_q. nra. }
  assert (H100 : (0 <= Q2Qc (100 # 1))%Qc) by (intros E; discriminate E).
  now apply Qcmult_le_compat_r.
Qed.
End Returns.

(** The rows of the scenario loop, whatever [np.mean] is. *)
Lemma scenario_status_positive (ret : Qc) :
  scenario_status ret = true <-> (0 < ret)%Qc.
Proof.
  unfold scenario_status. cbn [ltb lit exact_arith].
  destruct (Qc_ltb (Q2Qc (50 # 1)) ret) eqn:E50.
  - apply Qc_ltb_spec in E50. split; [intros _ | reflexivity].
    eapply Qclt_trans; [| exact E50]. reflexivity.
  - destruct (Qc_ltb (Q2Qc 0) ret) eqn:E0.
    + apply Qc_ltb_spec in E0. split; [intros _; exact E0 | reflexivity].
    + split; [discriminate |]. intros H. apply Qc_ltb_spec in H. congruence.
Qed.

Lemma scenarios_loop_spec (cfg : Config Qc) (np_mean : list Qc -> Qc)
    (l : list (string * Qc * Qc)) (rows : list (bool * string * Qc))
    (rng : RandomState Qc) :
  exists new,
    scenarios_loop cfg np_mean l rows rng
    = (rows ++ new, advance (length l * (100 * draws_per_run cfg)) rng)
    /\ map (fun r => snd (fst r)) new = map (fun s => fst (fst s)) l
    /\ Forall (fun r => fst (fst r) = true <-> (0 < snd r)%Qc) new.
Proof.
  revert rows rng; induction l as [|[[name win] prem] l IH]; intros rows rng.
  - exists []. cbn. now rewrite app_nil_r, advance_0.
  - cbn [scenarios_loop]. rewrite scenario_caps_spec.
    destruct (IH (rows ++
                  [(scenario_status
                      (scenario_return cfg np_mean
                         ([] ++ map fst
                                  (spec_results
                                     (scenario_config cfg win prem) 100 rng))),
                    name,
                    scenario_return cfg np_mean
                      ([] ++ map fst
                               (spec_results
                                  (scenario_config cfg win prem) 100 rng)))])
                (advance (100 * draws_per_run cfg) rng))
      as [new [Hloop [Hnames Hrows]]].
    eexists (_ :: new). rewrite Hloop, <- app_assoc, advance_advance.
    split; [reflexivity |]. split.
    + cbn [map fst snd]. now rewrite Hnames.
    + constructor; [| exact Hrows]. cbn [fst snd].
      apply scenario_status_positive.
Qed.

Lemma Qcdiv_lt_upper (x c b : Qc) :
  (0 < c)%Qc -> (x < b * c)%Qc -> (x / c < b)%Qc.
Proof.
  intros Hc Hx. apply Qcnot_le_lt. intros Hb.
  apply (Qcmult_le_compat_r _ _ c) in Hb; [| now apply Qclt_le_weak].
  replace (x / c * c)%Qc with x in Hb.
  - exact (Qcle_not_lt _ _ Hb Hx).
  - field. intros H. rewrite H in Hc. discriminate Hc.
Qed.

Lemma Qcpower_gt_1 (p : Qc) (n : nat) :
  (1 < p)%Qc -> 0 < n -> (1 < p ^ n)%Qc.
Proof.
  intros Hp Hn. destruct n as [|n]; [lia |]. cbn [Qcpower].
  pose proof (Qcpower_ge_1 n (Qclt_le_weak _ _ Hp)) as H1.
  qc_to_q. nra.
Qed.

Lemma wins_all (cfg : Config Qc) (rng : RandomState Qc) (n : nat) :
  (forall k, (draw rng k < WIN_RATE cfg)%Qc) -> wins cfg rng n = n.
Proof.
  intros Hw. induction n as [|n IH]; cbn [wins].
  - reflexivity.
  - rewrite IH. now rewrite (proj2 (Qc_ltb_spec _ _) (Hw n)).
Qed.

(** The mean return of the runs is at most the return of a run of wins
    only. *)
Lemma mean_return_le (cfg : Config Qc) (runs : nat) (rng : RandomState Qc) :
  in_range cfg -> runs <> 0 ->
  (mean (returns_of cfg (map fst (spec_results cfg runs rng)))
   <= (win_factor cfg ^ draws_per_run cfg - 1) * Q2Qc (100 # 1))%Qc.
Proof.
  intros Hcfg Hruns. apply mean_le.
  - intros H. apply (f_equal (@length Qc)) in H.
    unfold returns_of, spec_results in H.
    rewrite !length_map, length_seq in H. cbn in H. congruence.
  - intros x Hx. unfold returns_of in Hx. rewrite map_map in Hx.
    apply in_map_iff in Hx. destruct Hx as [res [<- Hres]].
    unfold spec_results in Hres. apply In_map_seq in Hres.
    destruct Hres as [i [_ ->]]. cbn [fst spec_result].
    apply percent_return_le; [now destruct Hcfg |].
    now apply capital_between.
Qed.

Lemma source_config_in_range : in_range (source_config (F:=Qc)).
Proof. apply valid_config_in_range. vm_compute. reflexivity. Qed.

Lemma source_win_factor :
  win_factor (source_config (F:=Qc)) = Q2Qc (161 # 160).
Proof. apply Qc_is_canon. reflexivity. Qed.

(** 144 wins multiply the capital by less than 2.8. *)
Lemma source_best_case : (Q2Qc (161 # 160) ^ 144 < Q2Qc (28 # 10))%Qc.
Proof.
  unfold Qclt. rewrite Qcpower_Qpower. vm_compute. reflexivity.
Qed.

End MainFacts.

Import CompleteBacktest CompleteBacktestFacts SimulatorFacts ExactFacts.
Import ExpectationFacts CompleteBacktestMain GrowthFacts MainFacts.

(** X1.  A call of [run_simulation] for [a + b] runs returns what a call for
    [a] runs followed by a call for [b] runs returns, the second call
    starting from the generator as the first left it: the results of the
    first, then those of the second.  A call for [a] runs draws exactly
    [a * months * trades_per_month] values. *)
Theorem run_simulation_in_two_calls {F : Type} {A : Arith F}
    (cfg : Config F) (a b : nat) (rng : RandomState F) :
  let first := run_simulation cfg a rng in
  let second := run_simulation cfg b (snd first) in
  snd first = advance (a * (months cfg * trades_per_month cfg)) rng
  /\ run_simulation cfg (a + b) rng
     = (fst first ++ fst second, snd second).
Proof.
  cbv zeta. rewrite !run_simulation_spec. cbn [fst snd].
  split; [reflexivity |].
  now rewrite spec_results_app, advance_advance, Nat.mul_add_distr_r.
Qed.

(** X2.  In exact arithmetic the final capital of a run does not depend on
    the order of its wins and losses: with [w] winning draws among the [n]
    of the run it is the initial capital times [w] win factors
    [1 + POSITION_SIZE * PREMIUM * TAKE_PROFIT] and [n - w] loss factors
    [1 - POSITION_SIZE * PREMIUM * 0.3]. *)
Theorem final_capital_counts_wins (cfg : Config Qc) (rng : RandomState Qc) :
  let n := draws_per_run cfg in
  let w := wins cfg rng n in
  fst (fst (one_run cfg rng))
  = (INITIAL_CAPITAL cfg * win_factor cfg ^ w
       * loss_factor cfg ^ (n - w))%Qc.
Proof.
  intros n w. rewrite one_run_spec. cbn [fst spec_result].
  apply spec_capital_from_wins.
Qed.

(** X3.  In exact arithmetic and for constants in range, the final capital
    and every monthly entry of every result lie between the outcome of a
    run of losses only, [INITIAL_CAPITAL * loss factor ^ n], and the outcome
    of a run of wins only, [INITIAL_CAPITAL * win factor ^ n], for the [n]
    trades of a run. *)
Theorem results_between_all_losses_and_all_wins (cfg : Config Qc)
    (runs : nat) (rng : RandomState Qc) (res : Qc * list Qc) :
  valid_config cfg = true ->
  In res (fst (run_simulation cfg runs rng)) ->
  let lowest := (INITIAL_CAPITAL cfg
                 * loss_factor cfg ^ draws_per_run cfg)%Qc in
  let highest := (INITIAL_CAPITAL cfg
                  * win_factor cfg ^ draws_per_run cfg)%Qc in
  Forall (fun x => (lowest <= x)%Qc /\ (x <= highest)%Qc)
         (fst res :: snd res).
Proof.
  intros Hv Hin lowest highest. apply valid_config_in_range in Hv.
  apply In_results in Hin. destruct Hin as [i [_ ->]].
  cbn [fst snd spec_result]. constructor.
  - now apply capital_between.
  - apply Forall_forall. intros x Hx. unfold spec_path in Hx.
    apply In_map_seq in Hx. destruct Hx as [j [Hj ->]].
    apply capital_between_at_most; [exact Hv |].
    unfold draws_per_run. nia.
Qed.

Lemma results_between_all_losses_and_all_wins_witness :
  let cfg := with_schedule (source_config (F:=Qc)) 2 2 in
  let rng := replay [Q2Qc (9 # 10); Q2Qc (1 # 10)] (Q2Qc (1 # 2)) in
  let res := hd (0%Qc, []) (fst (run_simulation cfg 2 rng)) in
  valid_config cfg = true
  /\ In res (fst (run_simulation cfg 2 rng))
  /\ Forall (fun x =>
               (INITIAL_CAPITAL cfg * loss_factor cfg ^ draws_per_run cfg
                <= x)%Qc
               /\ (x <= INITIAL_CAPITAL cfg
                        * win_factor cfg ^ draws_per_run cfg)%Qc)
            (fst res :: snd res).
Proof.
  intros cfg rng res.
  assert (Hv : valid_config cfg = true) by (vm_compute; reflexivity).
  assert (Hin : In res (fst (run_simulation cfg 2 rng)))
    by (vm_compute; left; reflexivity).
  split; [exact Hv |]. split; [exact Hin |].
  exact (@results_between_all_losses_and_all_wins cfg 2 rng res Hv Hin).
Defined.

(** X4.  In exact arithmetic, for constants in range with a win rate of 1
    and draws in [0,1), every run of at least one trade ends strictly above
    the initial capital. *)
Theorem all_wins_end_above_initial (cfg : Config Qc) (runs : nat)
    (rng : RandomState Qc) (res : Qc * list Qc) :
  valid_config cfg = true ->
  WIN_RATE cfg = 1%Qc ->
  unit_draws rng ->
  0 < months cfg * trades_per_month cfg ->
  In res (fst (run_simulation cfg runs rng)) ->
  (INITIAL_CAPITAL cfg < fst res)%Qc.
Proof.
  intros Hv Hw Hu Hn Hin. apply valid_config_in_range in Hv.
  apply In_results in Hin. destruct Hin as [i [_ ->]].
  cbn [fst spec_result]. unfold spec_capital_after.
  rewrite spec_capital_from_wins, wins_all, Nat.sub_diag.
  - assert (H1 : (1 < win_factor cfg)%Qc).
    { destruct Hv. unfold win_factor. qc_to_q.
      assert (0 < POSITION_SIZE cfg * PREMIUM cfg)%Q by nra. nra. }
    pose proof (Qcpower_gt_1 H1 Hn) as Hp.
    assert (Hc : (0 < INITIAL_CAPITAL cfg)%Qc) by now destruct Hv.
    fold (draws_per_run cfg) in Hp. cbn [Qcpower]. qc_to_q. nra.
  - intros k. rewrite Hw, draw_advance.
    exact (proj2 (@rounded_unit_draws _ exact_rounding rng _ Hu)).
Qed.

Lemma all_wins_end_above_initial_witness :
  let cfg := scenario_config (with_schedule (source_config (F:=Qc)) 2 2)
               1%Qc (Q2Qc (5 # 100)) in
  let rng := replay [] (Q2Qc (1 # 2)) in
  let res := hd (0%Qc, []) (fst (run_simulation cfg 2 rng)) in
  valid_config cfg = true
  /\ WIN_RATE cfg = 1%Qc
  /\ unit_draws rng
  /\ 0 < months cfg * trades_per_month cfg
  /\ In res (fst (run_simulation cfg 2 rng))
  /\ (INITIAL_CAPITAL cfg < fst res)%Qc.
Proof.
  intros cfg rng res.
  assert (Hv : valid_config cfg = true) by (vm_compute; reflexivity).
  assert (Hw : WIN_RATE cfg = 1%Qc) by reflexivity.
  assert (Hu : unit_draws rng).
  { intros k. unfold rng. rewrite draw_replay.
    destruct k; split; vm_compute; reflexivity. }
  assert (Hn : 0 < months cfg * trades_per_month cfg) by (vm_compute; lia).
  assert (Hin : In res (fst (run_simulation cfg 2 rng)))
    by (vm_compute; left; reflexivity).
  repeat (split; [assumption |]).
  exact (@all_wins_end_above_initial cfg 2 rng res Hv Hw Hu Hn Hin).
Defined.

(** X5.  With the constants of the script and exact arithmetic, [main] never
    reports the target as achieved, whatever is drawn: the mean return of the
    1000 runs is at most that of 144 wins, under 180 percent, so the monthly
    figure [np.mean(returns)/36] stays below 5. *)
Theorem monthly_target_out_of_reach (rng : RandomState Qc) :
  let report := fst (main (source_config (F:=Qc)) mean rng) in
  (monthly report < Q2Qc (5 # 1))%Qc /\ status report <> ACHIEVED.
Proof.
  unfold main. rewrite run_simulation_spec.
  destruct (scenarios_loop source_config mean scenarios [] _) as [rows rng2].
  cbn [fst monthly status].
  assert (Hm : (monthly_of mean
                  (returns_of source_config
                     (map fst (spec_results source_config 1000 rng)))
                < Q2Qc (5 # 1))%Qc).
  { unfold monthly_of. cbn [div lit exact_arith].
    apply Qcdiv_lt_upper; [reflexivity |].
    eapply Qcle_lt_trans.
    - apply mean_return_le; [apply source_config_in_range | discriminate].
    - rewrite source_win_factor.
      change (draws_per_run (source_config (F:=Qc))) with 144.
      generalize source_best_case.
      generalize (Q2Qc (161 # 160) ^ 144)%Qc. intros p Hb.
      qc_to_q. lra. }
  split; [exact Hm |].
  unfold monthly_status. cbn [leb lit exact_arith].
  destruct (Qc_leb (Q2Qc (5 # 1)) _) eqn:E.
  - apply Qc_leb_spec in E. now apply Qcle_not_lt in E.
  - destruct (Qc_leb (Q2Qc (3 # 1)) _); intros H; discriminate H.
Qed.

(** X6.  In exact arithmetic the mean of the percentage returns that [main]
    prints is the percentage return of the mean final capital, the figure
    the scenario loop computes, for any non-empty list of final capitals. *)
Theorem mean_return_is_return_of_mean (cfg : Config Qc) (finals : list Qc) :
  finals <> [] ->
  mean (returns_of cfg finals) = scenario_return cfg mean finals.
Proof.
  intros Hf. unfold returns_of, scenario_return.
  rewrite (map_ext _ _ (percent_return_affine cfg)).
  rewrite mean_affine by exact Hf.
  now rewrite percent_return_affine.
Qed.

Lemma mean_return_is_return_of_mean_witness :
  let cfg := source_config (F:=Qc) in
  let finals := [Q2Qc (60000 # 1); Q2Qc (45000 # 1)] in
  finals <> []
  /\ mean (returns_of cfg finals) = scenario_return cfg mean finals.
Proof.
  intros cfg finals.
  assert (Hf : finals <> []) by discriminate.
  split; [exact Hf |].
  exact (@mean_return_is_return_of_mean cfg finals Hf).
Defined.

(** X7.  The scenario loop of [main] gives one row per scenario, in the
    order of [scenarios]; the check mark of a row is shown exactly when its
    return is positive, the threshold of 50 making no difference; and the
    four scenarios draw [4 * 100 * months * trades_per_month] values.  This
    holds in exact arithmetic, whatever [np.mean] returns. *)
Theorem scenario_rows_in_order (cfg : Config Qc) (np_mean : list Qc -> Qc)
    (rng : RandomState Qc) :
  let out := scenarios_loop cfg np_mean scenarios [] rng in
  map (fun r => snd (fst r)) (fst out)
  = ["Perfect (95% win)"%string; "His Claim (85% win)"%string;
     "Bear Market (70% win)"%string; "Crash (50% win)"%string]
  /\ Forall (fun r => fst (fst r) = true <-> (0 < snd r)%Qc) (fst out)
  /\ snd out
     = advance (4 * (100 * (months cfg * trades_per_month cfg))) rng.
Proof.
  cbv zeta.
  destruct (scenarios_loop_spec cfg np_mean scenarios [] rng)
    as [new [Hloop [Hnames Hrows]]].
  rewrite Hloop. cbn [fst snd app].
  split; [exact Hnames |]. split; [exact Hrows | reflexivity].
Qed.

(** *** The loop of [simulate_option_sell] *)

Module SellLoopFacts.
Import OptionSelling OptionSellingBacktest.

Lemma seq_sorted (a n : nat) : StronglySorted lt (seq a n).
Proof.
  revert a; induction n as [|n IH]; intros a; cbn [seq].
  - constructor.
  - constructor; [apply IH |].
    apply Forall_forall. intros x Hx. apply in_seq in Hx. lia.
Qed.

Section Loop.
Context {F : Type} {A : Arith F} {R : Sqrt F}.
Variable closes : list F.

(** What one day does: nothing on a day that is not acted on; one draw and
    no trade when the premium is below [MIN_RETURN]; otherwise two draws and
    one trade, dated that day, whose profit goes to the capital. *)
Lemma day_cases (st : LoopState) (i : nat) :
  (acted_on closes i = false /\ day closes st i = st)
  \/ (acted_on closes i = true
      /\ capital (day closes st i) = capital st
      /\ trades (day closes st i) = trades st
      /\ rng (day closes st i) = advance 1 (rng st))
  \/ (acted_on closes i = true
      /\ exists t,
           date t = i
           /\ trades (day closes st i) = trades st ++ [t]
           /\ capital (day closes st i) = add (capital st) (profit t)
           /\ rng (day closes st i) = advance 2 (rng st)).
Proof.
  unfold acted_on, day.
  destruct (leb (close closes (i - 1)) (close closes i)).
  - left. now split.
  - right. unfold uniform. rewrite random_draw.
    destruct (ltb _ MIN_RETURN).
    + left. cbn [capital trades rng]. now repeat split.
    + right. split; [reflexivity |]. rewrite random_draw.
      eexists. cbn [capital trades rng].
      split; [| split; [reflexivity | split; [reflexivity |]]].
      * reflexivity.
      * now rewrite advance_advance.
Qed.

(** The loop over the days [l], from the state [st]. *)
Lemma days_loop (l : list nat) (st : LoopState) :
  exists ts,
    trades (fold_left (day closes) l st) = trades st ++ ts
    /\ capital (fold_left (day closes) l st)
       = fold_left add (map profit ts) (capital st)
    /\ rng (fold_left (day closes) l st)
       = advance (length (filter (acted_on closes) l) + length ts) (rng st)
    /\ length ts <= length (filter (acted_on closes) l)
    /\ Forall (fun t => In (date t) l /\ acted_on closes (date t) = true) ts
    /\ (StronglySorted lt l -> StronglySorted lt (map date ts)).
Proof.
  revert st; induction l as [|i l IH]; intros st.
  - exists []. cbn. rewrite app_nil_r, advance_0.
    repeat split; auto.
  - cbn [fold_left filter].
    destruct (IH (day closes st i)) as [ts [Ht [Hc [Hg [Hn [Hd Hs]]]]]].
    assert (Hd' : Forall (fun t => In (date t) (i :: l)
                                   /\ acted_on closes (date t) = true) ts).
    { eapply Forall_impl; [| exact Hd]. intros t [H1 H2].
      split; [now right | exact H2]. }
    destruct (day_cases st i)
      as [[Ha Hday] | [[Ha [Hcap [Htr Hrng]]] | [Ha [t [Hdt [Htr [Hcap Hrng]]]]]]];
      rewrite Ha.
    + rewrite Hday in *. exists ts.
      repeat split; auto; intros Hl; apply Hs; now inversion Hl.
    + exists ts. rewrite Ht, Hc, Hg, Htr, Hcap, Hrng, advance_advance.
      cbn [length].
      repeat split; auto; try (f_equal; lia); try lia;
        intros Hl; apply Hs; now inversion Hl.
    + exists (t :: ts).
      rewrite Ht, Hc, Hg, Htr, Hcap, Hrng, advance_advance, <- app_assoc.
      cbn [length map fold_left app].
      split; [reflexivity |]. split; [reflexivity |].
      split; [f_equal; lia |]. split; [lia |]. split.
      * constructor; [| exact Hd'].
        rewrite Hdt. split; [now left | exact Ha].
      * intros Hl. inversion Hl as [| ? ? Hl' Hi]; subst.
        constructor; [now apply Hs |].
        apply Forall_forall. intros d Hdin.
        apply in_map_iff in Hdin. destruct Hdin as [t' [<- Ht']].
        rewrite Forall_forall in Hd, Hi.
        apply Hi. now apply Hd.
Qed.


(** The value [simulate_option_sell] returns, in terms of the loop. *)
Lemma simulate_option_sell_some (g g' : RandomState F) (s : Summary) :
  simulate_option_sell closes g = Some (s, g') ->
  100 <= length closes
  /\ exists st,
       st = fold_left (day closes) (days closes) (start g)
       /\ summary_trades s = length (trades st)
       /\ summary_capital s = capital st
       /\ trades_data s = trades st
       /\ g' = rng st.
Proof.
  unfold simulate_option_sell.
  destruct (Nat.ltb_spec (length closes) 100) as [Hlt | Hge];
    [discriminate |].
  intros H. inversion H; subst; clear H. split; [exact Hge |].
  eexists. split; [reflexivity |]. cbn. now repeat split.
Qed.
End Loop.

End SellLoopFacts.

Import OptionSelling OptionSellingBacktest SellLoopFacts.



(** X9.  The capital [simulate_option_sell] returns is the initial capital
    to which the profits of the recorded trades were added one after the
    other, in the order of the trade list. *)
Theorem simulate_option_sell_accounts {F : Type} {A : Arith F} {R : Sqrt F}
    (closes : list F) (g g' : RandomState F) (s : Summary) :
  simulate_option_sell closes g = Some (s, g') ->
  summary_capital s
  = fold_left add (map profit (trades_data s)) INITIAL_CAPITAL.
Proof.
  intros Hs. apply simulate_option_sell_some in Hs.
  destruct Hs as [_ [st [Hst [_ [Hc [Hd _]]]]]].
  destruct (days_loop closes (days closes) (start g))
    as [ts [Ht [Hcap _]]].
  rewrite <- Hst in Ht, Hcap. cbn [trades capital start app] in Ht, Hcap.
  now rewrite Hc, Hd, Hcap, Ht.
Qed.

Lemma simulate_option_sell_accounts_witness :
  let closes := map (fun i => if Nat.even i then 2%float else 1%float)
                    (seq 0 100) in
  let g := replay [] 0.9%float in
  let out := simulate_option_sell closes g in
  let s := match out with Some (s, _) => s | None =>
             {| summary_trades := 0; summary_capital := 0%float;
                total_return := 0%float; trades_data := [] |} end in
  let g' := match out with Some (_, g') => g' | None => g end in
  simulate_option_sell closes g = Some (s, g')
  /\ summary_capital s
     = fold_left add (map profit (trades_data s)) INITIAL_CAPITAL.
Proof.
  intros closes g out s g'.
  assert (Hs : simulate_option_sell closes g = Some (s, g'))
    by (vm_compute; reflexivity).
  split; [exact Hs |].
  exact (simulate_option_sell_accounts closes g Hs).
Defined.

(** X10.  The trades [simulate_option_sell] records are dated in strictly
    increasing order, each on a day [i] of the loop,
    [30 <= i < len(hist) - 30], for which the test [close[i] >= close[i-1]]
    of line 101 is false. *)
Theorem simulate_option_sell_trade_dates {F : Type} {A : Arith F}
    {R : Sqrt F} (closes : list F) (g g' : RandomState F) (s : Summary) :
  simulate_option_sell closes g = Some (s, g') ->
  StronglySorted lt (map date (trades_data s))
  /\ Forall (fun t =>
               30 <= date t < length closes - 30
               /\ leb (close closes (date t - 1)) (close closes (date t))
                  = false)
            (trades_data s).
Proof.
  intros Hs. apply simulate_option_sell_some in Hs.
  destruct Hs as [Hlen [st [Hst [_ [_ [Hd _]]]]]].
  destruct (days_loop closes (days closes) (start g))
    as [ts [Ht [_ [_ [_ [Hin Hsorted]]]]]].
  rewrite <- Hst in Ht. cbn [trades start app] in Ht.
  rewrite Hd, Ht. split.
  - apply Hsorted. apply seq_sorted.
  - eapply Forall_impl; [| exact Hin]. intros t [Hday Hact].
    unfold days, DTE_TARGET in Hday. apply in_seq in Hday.
    unfold acted_on in Hact. apply negb_true_iff in Hact.
    split; [lia | exact Hact].
Qed.

Lemma simulate_option_sell_trade_dates_witness :
  let closes := map (fun i => if Nat.even i then 2%float else 1%float)
                    (seq 0 100) in
  let g := replay [] 0.5%float in
  let out := simulate_option_sell closes g in
  let s := match out with Some (s, _) => s | None =>
             {| summary_trades := 0; summary_capital := 0%float;
                total_return := 0%float; trades_data := [] |} end in
  let g' := match out with Some (_, g') => g' | None => g end in
  simulate_option_sell closes g = Some (s, g')
  /\ StronglySorted lt (map date (trades_data s))
  /\ Forall (fun t =>
               30 <= date t < length closes - 30
               /\ leb (close closes (date t - 1)) (close closes (date t))
                  = false)
            (trades_data s).
Proof.
  intros closes g out s g'.
  assert (Hs : simulate_option_sell closes g = Some (s, g'))
    by (vm_compute; reflexivity).
  split; [exact Hs |].
  exact (simulate_option_sell_trade_dates closes g Hs).
Defined.

(** *** Red days *)

Module RedDayFacts.
Import OptionSelling OptionSellingBacktest.

Lemma last_two_of_prefix {F : Type} {A : Arith F} (closes : list F)
    (i : nat) :
  1 <= i -> i < length closes ->
  is_red_day (firstn (S i) closes)
  = ltb (close closes i) (close closes (i - 1)).
Proof.
  intros H1 Hi. unfold is_red_day, close.
  rewrite length_firstn, Nat.min_l by lia.
  destruct (Nat.ltb_spec (S i) 2) as [Hlt | _]; [lia |].
  rewrite !nth_firstn.
  replace (S i - 1) with i by lia. replace (S i - 2) with (i - 1) by lia.
  destruct (Nat.ltb_spec i (S i)); [| lia].
  destruct (Nat.ltb_spec (i - 1) (S i)); [| lia].
  reflexivity.
Qed.

Lemma Qc_ltb_negb_leb (x y : Qc) : Qc_ltb x y = negb (Qc_leb y x).
Proof.
  destruct (Qc_leb y x) eqn:E; cbn [negb].
  - apply ExactFacts.Qc_leb_spec in E. now apply ExactFacts.Qc_ltb_false.
  - apply ExactFacts.Qc_ltb_spec. apply Qcnot_le_lt. intros H.
    apply ExactFacts.Qc_leb_spec in H. congruence.
Qed.

(** A day that is acted on takes values from the generator. *)
Lemma acted_on_draws {F : Type} {A : Arith F} {R : Sqrt F}
    (closes : list F) (st : LoopState) (i : nat) :
  acted_on closes i = true -> rng (day closes st i) <> rng st.
Proof.
  intros Ha Heq. apply (f_equal (@cursor F)) in Heq.
  destruct (SellLoopFacts.day_cases closes st i)
    as [[Hn _] | [[_ [_ [_ Hr]]] | [_ [t [_ [_ [_ Hr]]]]]]].
  - congruence.
  - rewrite Hr in Heq. cbn [cursor advance] in Heq. lia.
  - rewrite Hr in Heq. cbn [cursor advance] in Heq. lia.
Qed.

Lemma not_acted_on_skips {F : Type} {A : Arith F} {R : Sqrt F}
    (closes : list F) (st : LoopState) (i : nat) :
  acted_on closes i = false -> day closes st i = st.
Proof.
  intros Ha.
  destruct (SellLoopFacts.day_cases closes st i)
    as [[_ Hd] | [[Hn _] | [Hn _]]]; [exact Hd | congruence | congruence].
Qed.

(** Binary64: a NaN compares false with everything. *)
Lemma SFeqb_refl_false (s : spec_float) : SFeqb s s = false -> s = S754_nan.
Proof.
  unfold SFeqb.
  destruct s as [b | b | | b m e]; cbn; try discriminate; try reflexivity.
  - destruct b; discriminate.
  - rewrite Z.compare_refl, Pos.compare_cont_refl. destruct b; discriminate.
Qed.

Lemma is_nan_spec (x : float) :
  PrimFloat.is_nan x = true -> Prim2SF x = S754_nan.
Proof.
  unfold PrimFloat.is_nan. intros H. apply SFeqb_refl_false.
  rewrite <- FloatAxioms.eqb_spec. now destruct (PrimFloat.eqb x x).
Qed.

Lemma nan_compares_false (x y : float) :
  PrimFloat.is_nan x = true ->
  PrimFloat.ltb x y = false /\ PrimFloat.ltb y x = false
  /\ PrimFloat.leb x y = false /\ PrimFloat.leb y x = false.
Proof.
  intros H. apply is_nan_spec in H.
  rewrite !FloatAxioms.ltb_spec, !FloatAxioms.leb_spec, H.
  unfold SFltb, SFleb. destruct (Prim2SF y); cbn; auto.
Qed.

End RedDayFacts.

Import RedDayFacts.

(** X11.  In exact arithmetic the loop of [simulate_option_sell] acts on day
    [i] exactly when [is_red_day] holds of the closes up to that day: on a
    day that is not red the state is left as it is, on a red day values are
    drawn from the generator. *)
Theorem loop_acts_on_red_days (R : Sqrt Qc) (closes : list Qc)
    (st : LoopState) (i : nat) :
  1 <= i -> i < length closes ->
  is_red_day (firstn (S i) closes) = acted_on closes i
  /\ (is_red_day (firstn (S i) closes) = false -> day closes st i = st)
  /\ (is_red_day (firstn (S i) closes) = true ->
      rng (day closes st i) <> rng st).
Proof.
  intros H1 Hi.
  assert (E : is_red_day (firstn (S i) closes) = acted_on closes i).
  { rewrite last_two_of_prefix by assumption. unfold acted_on.
    cbn [ltb leb exact_arith]. apply Qc_ltb_negb_leb. }
  split; [exact E |]. rewrite E. split.
  - apply not_acted_on_skips.
  - apply acted_on_draws.
Qed.

Lemma loop_acts_on_red_days_witness :
  let R := {| sqrt := fun x : Qc => x |} in
  let closes := [Q2Qc (3 # 1); Q2Qc (2 # 1); Q2Qc (5 # 2)] in
  let st := start (replay [] (Q2Qc (1 # 2))) in
  1 <= 1 /\ 1 < length closes
  /\ is_red_day (firstn 2 closes) = acted_on closes 1
  /\ (is_red_day (firstn 2 closes) = false -> day closes st 1 = st)
  /\ (is_red_day (firstn 2 closes) = true ->
      rng (day closes st 1) <> rng st).
Proof.
  intros R closes st.
  assert (H1 : 1 <= 1) by lia.
  assert (Hi : 1 < length closes) by (cbn; lia).
  split; [exact H1 |]. split; [exact Hi |].
  exact (@loop_acts_on_red_days R closes st 1 H1 Hi).
Defined.

(** X12.  In binary64 the two tests part on a missing price: when the close
    of day [i] or of the day before is NaN, [is_red_day] of the closes up to
    day [i] is [False], yet the loop of [simulate_option_sell] does not skip
    the day, since [close[i] >= close[i-1]] is false too, and draws from the
    generator. *)
Theorem nan_close_is_not_red_but_traded (closes : list float)
    (st : LoopState) (i : nat) :
  1 <= i -> i < length closes ->
  PrimFloat.is_nan (close closes i) = true
  \/ PrimFloat.is_nan (close closes (i - 1)) = true ->
  is_red_day (firstn (S i) closes) = false
  /\ acted_on closes i = true
  /\ rng (day closes st i) <> rng st.
Proof.
  intros H1 Hi Hnan.
  assert (Hcmp : ltb (close closes i) (close closes (i - 1)) = false
                 /\ leb (close closes (i - 1)) (close closes i) = false).
  { cbn [ltb leb binary64_arith]. destruct Hnan as [Hn | Hn].
    - destruct (@nan_compares_false (close closes i)
                  (close closes (i - 1)) Hn) as [A1 [_ [_ A4]]].
      now split.
    - destruct (@nan_compares_false (close closes (i - 1))
                  (close closes i) Hn) as [_ [A2 [A3 _]]].
      now split. }
  destruct Hcmp as [Hlt Hle].
  assert (Ha : acted_on closes i = true)
    by (unfold acted_on; now rewrite Hle).
  split; [now rewrite last_two_of_prefix | ].
  split; [exact Ha | now apply acted_on_draws].
Qed.

Lemma nan_close_is_not_red_but_traded_witness :
  let closes := [3%float; PrimFloat.nan; 2%float] in
  let st := start (replay [] 0.5%float) in
  1 <= 1 /\ 1 < length closes
  /\ (PrimFloat.is_nan (close closes 1) = true
      \/ PrimFloat.is_nan (close closes (1 - 1)) = true)
  /\ is_red_day (firstn 2 closes) = false
  /\ acted_on closes 1 = true
  /\ rng (day closes st 1) <> rng st.
Proof.
  intros closes st.
  assert (H1 : 1 <= 1) by lia.
  assert (Hi : 1 < length closes) by (cbn; lia).
  assert (Hn : PrimFloat.is_nan (close closes 1) = true
               \/ PrimFloat.is_nan (close closes (1 - 1)) = true)
    by (left; reflexivity).
  split; [exact H1 |]. split; [exact Hi |]. split; [exact Hn |].
  exact (@nan_close_is_not_red_but_traded closes st 1 H1 Hi Hn).
Defined.

(** *** Python's [min] and [max] *)

Module MinMaxFacts.

Section FirstMinimum.
Context {X K : Type}.
Variable lt : K -> K -> bool.
Variable key : X -> K.
Hypothesis lt_trans :
  forall a b c, lt a b = true -> lt b c = true -> lt a c = true.
Hypothesis lt_le_trans :
  forall a b c, lt a b = true -> lt c b = false -> lt a c = true.

Lemma min_fold (rest l1 l2 : list X) (m : X) :
  (forall y, In y l1 -> lt (key m) (key y) = true) ->
  (forall y, In y l2 -> lt (key y) (key m) = false) ->
  exists l1' e l2',
    l1 ++ m :: l2 ++ rest = l1' ++ e :: l2'
    /\ fold_left (fun m y => if lt (key y) (key m) then y else m) rest m = e
    /\ (forall y, In y l1' -> lt (key e) (key y) = true)
    /\ (forall y, In y l2' -> lt (key y) (key e) = false).
Proof.
  revert l1 l2 m; induction rest as [|y rest IH]; intros l1 l2 m H1 H2.
  - exists l1, m, l2. rewrite app_nil_r. now repeat split.
  - cbn [fold_left]. destruct (lt (key y) (key m)) eqn:E.
    + destruct (IH (l1 ++ m :: l2) [] y) as [l1' [e [l2' [Hl H]]]].
      * intros z Hz. apply in_app_or in Hz.
        destruct Hz as [Hz | [<- | Hz]].
        -- eapply lt_trans; [exact E | now apply H1].
        -- exact E.
        -- eapply lt_le_trans; [exact E | now apply H2].
      * intros z [].
      * exists l1', e, l2'. split; [| exact H].
        rewrite <- Hl, <- app_assoc. reflexivity.
    + destruct (IH l1 (l2 ++ [y]) m) as [l1' [e [l2' [Hl H]]]].
      * exact H1.
      * intros z Hz. apply in_app_or in Hz.
        destruct Hz as [Hz | [<- | []]]; [now apply H2 | exact E].
      * exists l1', e, l2'. split; [| exact H].
        rewrite <- Hl, <- app_assoc. reflexivity.
Qed.

(** [min(l, key=key)] is the first item of [l] whose key is smallest. *)
Lemma py_min_by_first (l : list X) (e : X) :
  py_min_by lt key l = Some e ->
  exists l1 l2,
    l = l1 ++ e :: l2
    /\ (forall y, In y l1 -> lt (key e) (key y) = true)
    /\ (forall y, In y l2 -> lt (key y) (key e) = false).
Proof.
  destruct l as [|x rest]; [discriminate |]. cbn [py_min_by].
  intros H. injection H as H.
  destruct (@min_fold rest [] [] x) as [l1 [e' [l2 [Hl [Hf [H1 H2]]]]]].
  - intros y [].
  - intros y [].
  - rewrite H in Hf. subst e'. exists l1, l2. now repeat split.
Qed.
End FirstMinimum.

(** The same for [max], which is [min] for the reversed order. *)
Lemma py_max_by_first {X K : Type} (lt : K -> K -> bool) (key : X -> K)
    (l : list X) (e : X) :
  (forall a b c, lt a b = true -> lt b c = true -> lt a c = true) ->
  (forall a b c, lt b a = true -> lt b c = false -> lt c a = true) ->
  py_max_by lt key l = Some e ->
  exists l1 l2,
    l = l1 ++ e :: l2
    /\ (forall y, In y l1 -> lt (key y) (key e) = true)
    /\ (forall y, In y l2 -> lt (key e) (key y) = false).
Proof.
  intros Ht Hm H.
  refine (@py_min_by_first X K (fun a b => lt b a) key _ _ l e H).
  - intros a b c Hab Hbc. exact (Ht _ _ _ Hbc Hab).
  - intros a b c Hab Hcb. exact (Hm _ _ _ Hab Hcb).
Qed.

(** The two orders used: exact rationals and integers. *)
Lemma Qc_lt_trans_b (a b c : Qc) :
  Qc_ltb a b = true -> Qc_ltb b c = true -> Qc_ltb a c = true.
Proof.
  rewrite !ExactFacts.Qc_ltb_spec. apply Qclt_trans.
Qed.

Lemma Qc_lt_le_trans_b (a b c : Qc) :
  Qc_ltb a b = true -> Qc_ltb c b = false -> Qc_ltb a c = true.
Proof.
  rewrite !ExactFacts.Qc_ltb_spec, ExactFacts.Qc_ltb_false.
  apply Qclt_le_trans.
Qed.

Lemma Qc_le_lt_trans_b (a b c : Qc) :
  Qc_ltb b a = true -> Qc_ltb b c = false -> Qc_ltb c a = true.
Proof.
  rewrite !ExactFacts.Qc_ltb_spec, ExactFacts.Qc_ltb_false.
  intros H1 H2. eapply Qcle_lt_trans; eassumption.
Qed.

(** On exact rationals [min] and [max] of a non-empty list are members and
    bounds of it. *)
Lemma py_min_spec (l : list Qc) (d : Qc) :
  l <> [] ->
  In (py_min l d) l /\ forall x, In x l -> (py_min l d <= x)%Qc.
Proof.
  intros Hl. unfold py_min. cbn [ltb exact_arith].
  destruct (py_min_by Qc_ltb (fun x => x) l) as [m |] eqn:E.
  - destruct (@py_min_by_first Qc Qc Qc_ltb (fun x => x)
                Qc_lt_trans_b Qc_lt_le_trans_b l m E)
      as [l1 [l2 [-> [H1 H2]]]].
    split; [apply in_elt |].
    intros x Hx. apply in_app_or in Hx. destruct Hx as [Hx | [<- | Hx]].
    + apply Qclt_le_weak. apply ExactFacts.Qc_ltb_spec. now apply H1.
    + apply Qcle_refl.
    + apply ExactFacts.Qc_ltb_false. now apply H2.
  - destruct l; [congruence | discriminate].
Qed.

Lemma py_max_spec (l : list Qc) (d : Qc) :
  l <> [] ->
  In (py_max l d) l /\ forall x, In x l -> (x <= py_max l d)%Qc.
Proof.
  intros Hl. unfold py_max. cbn [ltb exact_arith].
  destruct (py_max_by Qc_ltb (fun x => x) l) as [m |] eqn:E.
  - destruct (@py_max_by_first Qc Qc Qc_ltb (fun x => x) l m
                Qc_lt_trans_b Qc_le_lt_trans_b E)
      as [l1 [l2 [-> [H1 H2]]]].
    split; [apply in_elt |].
    intros x Hx. apply in_app_or in Hx. destruct Hx as [Hx | [<- | Hx]].
    + apply Qclt_le_weak. apply ExactFacts.Qc_ltb_spec. now apply H1.
    + apply Qcle_refl.
    + apply ExactFacts.Qc_ltb_false. now apply H2.
  - destruct l; [congruence | discriminate].
Qed.

End MinMaxFacts.

(** *** calculate_iv_rank *)

Module IvRankFacts.
Import OptionSellingBacktest.

Lemma Qc_eq_bool_spec (x y : Qc) : Qc_eq_bool x y = true <-> x = y.
Proof.
  split; [apply Qc_eq_bool_correct |].
  intros ->. unfold Qc_eq_bool. destruct (Qc_eq_dec y y); congruence.
Qed.

Lemma Qc_pos_neq_0 (c : Qc) : (0 < c)%Qc -> c <> 0%Qc.
Proof.
  intros Hc H. rewrite H in Hc. discriminate Hc.
Qed.

Lemma Qcdiv_le_mono (x y c : Qc) :
  (0 < c)%Qc -> (x <= y)%Qc -> (x / c <= y / c)%Qc.
Proof.
  intros Hc Hxy. apply MainFacts.Qcdiv_le_upper; [exact Hc |].
  replace (y / c * c)%Qc with y; [exact Hxy |].
  field. now apply Qc_pos_neq_0.
Qed.

Lemma Qcdiv_same (c : Qc) : (0 < c)%Qc -> (c / c = 1)%Qc.
Proof.
  intros Hc. field. now apply Qc_pos_neq_0.
Qed.

Lemma Qcdiv_0_l (c : Qc) : (0 / c = 0)%Qc.
Proof.
  unfold Qcdiv. ring.
Qed.

Lemma Qcdiv_nonneg (x c : Qc) :
  (0 < c)%Qc -> (0 <= x)%Qc -> (0 <= x / c)%Qc.
Proof.
  intros Hc Hx. assert (H := Qcdiv_le_mono Hc Hx).
  rewrite Qcdiv_0_l in H. exact H.
Qed.

Lemma between_nonneg (iv lo m : Qc) :
  (m <= lo)%Qc -> (lo <= iv)%Qc -> (0 <= iv - m)%Qc.
Proof.
  intros H1 H2. qc_to_q. lra.
Qed.

Lemma between_le (iv hi m M : Qc) :
  (hi <= M)%Qc -> (iv <= hi)%Qc -> (iv - m <= 1 * (M - m))%Qc.
Proof.
  intros H1 H2. qc_to_q. lra.
Qed.

Lemma Qcminus_le_mono (a b m : Qc) : (a <= b)%Qc -> (a - m <= b - m)%Qc.
Proof.
  intros H. qc_to_q. lra.
Qed.

Lemma Qcminus_pos (x y : Qc) : (x <= y)%Qc -> y <> x -> (0 < y - x)%Qc.
Proof.
  intros Hle Hne.
  assert (H : (x < y)%Qc).
  { destruct (Qcle_lt_or_eq _ _ Hle) as [H | H]; [exact H | congruence]. }
  qc_to_q. lra.
Qed.

(** With at least 30 entries the history is not empty. *)
Lemma long_history (hist_ivs : list Qc) :
  (length hist_ivs <? 30) = false -> hist_ivs <> [].
Proof.
  intros H ->. discriminate H.
Qed.

(** The value returned from the last line of [calculate_iv_rank]. *)
Lemma calculate_iv_rank_long (iv : Qc) (hist_ivs : list Qc) :
  (length hist_ivs <? 30) = false ->
  py_max hist_ivs 0%Qc <> py_min hist_ivs 0%Qc ->
  calculate_iv_rank iv hist_ivs
  = ((iv - py_min hist_ivs 0%Qc)
     / (py_max hist_ivs 0%Qc - py_min hist_ivs 0%Qc))%Qc.
Proof.
  intros Hlen Hne. unfold calculate_iv_rank. rewrite Hlen.
  cbn [equal exact_eqb div sub lit exact_arith].
  change (Q2Qc 0) with 0%Qc.
  destruct (Qc_eq_bool (py_max hist_ivs 0%Qc) (py_min hist_ivs 0%Qc)) eqn:E;
    [| reflexivity].
  apply Qc_eq_bool_spec in E. contradiction.
Qed.

Lemma calculate_iv_rank_flat (iv : Qc) (hist_ivs : list Qc) :
  (length hist_ivs <? 30) = false ->
  py_max hist_ivs 0%Qc = py_min hist_ivs 0%Qc ->
  calculate_iv_rank iv hist_ivs = Q2Qc (5 # 10).
Proof.
  intros Hlen He. unfold calculate_iv_rank. rewrite Hlen.
  cbn [equal exact_eqb div sub lit exact_arith].
  change (Q2Qc 0) with 0%Qc. rewrite He.
  destruct (Qc_eq_bool (py_min hist_ivs 0%Qc) (py_min hist_ivs 0%Qc)) eqn:E;
    [reflexivity |].
  assert (H : Qc_eq_bool (py_min hist_ivs 0%Qc) (py_min hist_ivs 0%Qc) = true)
    by now apply Qc_eq_bool_spec.
  congruence.
Qed.

Lemma min_le_max (hist_ivs : list Qc) :
  hist_ivs <> [] -> (py_min hist_ivs 0 <= py_max hist_ivs 0)%Qc.
Proof.
  intros Hl.
  destruct (MinMaxFacts.py_min_spec 0%Qc Hl) as [Hin _].
  destruct (MinMaxFacts.py_max_spec 0%Qc Hl) as [_ Hmax].
  now apply Hmax.
Qed.

End IvRankFacts.

(** X13.  In exact arithmetic, with a history of at least 30 values, the
    rank of a value that lies between two values of the history is between
    0 and 1. *)
Theorem iv_rank_in_unit_interval (iv lo hi : Qc) (hist_ivs : list Qc) :
  30 <= length hist_ivs ->
  In lo hist_ivs -> In hi hist_ivs ->
  (lo <= iv)%Qc -> (iv <= hi)%Qc ->
  (0 <= OptionSellingBacktest.calculate_iv_rank iv hist_ivs)%Qc
  /\ (OptionSellingBacktest.calculate_iv_rank iv hist_ivs <= 1)%Qc.
Proof.
  intros Hlen Hlo Hhi Hl Hh.
  assert (Hlt : (length hist_ivs <? 30) = false) by (apply Nat.ltb_ge; lia).
  assert (Hne := @IvRankFacts.long_history hist_ivs Hlt).
  destruct (MinMaxFacts.py_min_spec 0%Qc Hne) as [_ Hmin].
  destruct (MinMaxFacts.py_max_spec 0%Qc Hne) as [_ Hmax].
  assert (H1 := Hmin _ Hlo). assert (H2 := Hmax _ Hhi).
  destruct (Qc_eq_dec (py_max hist_ivs 0%Qc) (py_min hist_ivs 0%Qc))
    as [He | Hd].
  - rewrite (@IvRankFacts.calculate_iv_rank_flat iv hist_ivs Hlt He).
    split; intros H; discriminate H.
  - rewrite (@IvRankFacts.calculate_iv_rank_long iv hist_ivs Hlt Hd).
    assert (Hc := IvRankFacts.Qcminus_pos (IvRankFacts.min_le_max Hne) Hd).
    split.
    + apply IvRankFacts.Qcdiv_nonneg; [exact Hc |].
      exact (IvRankFacts.between_nonneg H1 Hl).
    + apply MainFacts.Qcdiv_le_upper; [exact Hc |].
      exact (IvRankFacts.between_le _ H2 Hh).
Qed.

Lemma iv_rank_in_unit_interval_witness :
  let hist_ivs := Q2Qc (40 # 1) :: Q2Qc (80 # 1) :: repeat (Q2Qc (55 # 1)) 28 in
  let iv := Q2Qc (50 # 1) in
  30 <= length hist_ivs
  /\ (0 <= OptionSellingBacktest.calculate_iv_rank iv hist_ivs)%Qc
  /\ (OptionSellingBacktest.calculate_iv_rank iv hist_ivs <= 1)%Qc.
Proof.
  intros hist_ivs iv.
  assert (Hlen : 30 <= length hist_ivs) by (cbn; lia).
  assert (Hlo : In (Q2Qc (40 # 1)) hist_ivs) by (left; reflexivity).
  assert (Hhi : In (Q2Qc (80 # 1)) hist_ivs) by (right; left; reflexivity).
  assert (Hl : (Q2Qc (40 # 1) <= iv)%Qc) by (intros H; discriminate H).
  assert (Hh : (iv <= Q2Qc (80 # 1))%Qc) by (intros H; discriminate H).
  split; [exact Hlen |].
  exact (@iv_rank_in_unit_interval iv _ _ hist_ivs Hlen Hlo Hhi Hl Hh).
Defined.

(** X14.  In exact arithmetic the rank never decreases when the value
    increases, whatever the history. *)
Theorem iv_rank_monotone (iv1 iv2 : Qc) (hist_ivs : list Qc) :
  (iv1 <= iv2)%Qc ->
  (OptionSellingBacktest.calculate_iv_rank iv1 hist_ivs
   <= OptionSellingBacktest.calculate_iv_rank iv2 hist_ivs)%Qc.
Proof.
  intros Hle.
  destruct (length hist_ivs <? 30) eqn:Hlt.
  - unfold OptionSellingBacktest.calculate_iv_rank. rewrite Hlt.
    cbn [div exact_arith lit].
    apply IvRankFacts.Qcdiv_le_mono; [reflexivity | exact Hle].
  - assert (Hne := @IvRankFacts.long_history hist_ivs Hlt).
    destruct (Qc_eq_dec (py_max hist_ivs 0%Qc) (py_min hist_ivs 0%Qc))
      as [He | Hd].
    + rewrite !(fun iv => @IvRankFacts.calculate_iv_rank_flat iv hist_ivs Hlt He).
      apply Qcle_refl.
    + rewrite !(fun iv => @IvRankFacts.calculate_iv_rank_long iv hist_ivs Hlt Hd).
      apply IvRankFacts.Qcdiv_le_mono.
      * exact (IvRankFacts.Qcminus_pos (IvRankFacts.min_le_max Hne) Hd).
      * now apply IvRankFacts.Qcminus_le_mono.
Qed.

Lemma iv_rank_monotone_witness :
  let hist_ivs := Q2Qc (40 # 1) :: Q2Qc (80 # 1) :: repeat (Q2Qc (55 # 1)) 28 in
  (Q2Qc (50 # 1) <= Q2Qc (70 # 1))%Qc
  /\ (OptionSellingBacktest.calculate_iv_rank (Q2Qc (50 # 1)) hist_ivs
      <= OptionSellingBacktest.calculate_iv_rank (Q2Qc (70 # 1)) hist_ivs)%Qc.
Proof.
  intros hist_ivs.
  assert (Hle : (Q2Qc (50 # 1) <= Q2Qc (70 # 1))%Qc)
    by (intros H; discriminate H).
  split; [exact Hle |].
  exact (@iv_rank_monotone _ _ hist_ivs Hle).
Defined.

(** X15.  In exact arithmetic, with a history of at least 30 values that
    are not all the same, the smallest value of the history has rank 0 and
    the largest has rank 1; when all the values of the history are the same
    every value has rank 0.5, also one that is not in the history. *)
Theorem iv_rank_extremes (lo hi : Qc) (hist_ivs : list Qc) :
  30 <= length hist_ivs ->
  In lo hist_ivs -> In hi hist_ivs ->
  (forall x, In x hist_ivs -> (lo <= x)%Qc /\ (x <= hi)%Qc) ->
  (lo <> hi ->
     OptionSellingBacktest.calculate_iv_rank lo hist_ivs = 0%Qc
     /\ OptionSellingBacktest.calculate_iv_rank hi hist_ivs = 1%Qc)
  /\ (lo = hi ->
      forall iv,
        OptionSellingBacktest.calculate_iv_rank iv hist_ivs = Q2Qc (1 # 2)).
Proof.
  intros Hlen Hlo Hhi Hb.
  assert (Hlt : (length hist_ivs <? 30) = false) by (apply Nat.ltb_ge; lia).
  assert (Hne := @IvRankFacts.long_history hist_ivs Hlt).
  destruct (MinMaxFacts.py_min_spec 0%Qc Hne) as [Hmin_in Hmin].
  destruct (MinMaxFacts.py_max_spec 0%Qc Hne) as [Hmax_in Hmax].
  assert (Emin : py_min hist_ivs 0%Qc = lo).
  { apply Qcle_antisym; [now apply Hmin | now apply (Hb _ Hmin_in)]. }
  assert (Emax : py_max hist_ivs 0%Qc = hi).
  { apply Qcle_antisym; [now apply (Hb _ Hmax_in) | now apply Hmax]. }
  split.
  - intros Hd.
    assert (Hd' : py_max hist_ivs 0%Qc <> py_min hist_ivs 0%Qc)
      by (rewrite Emin, Emax; congruence).
    rewrite !(fun iv => @IvRankFacts.calculate_iv_rank_long iv hist_ivs Hlt Hd').
    rewrite Emin, Emax.
    assert (Hc : (0 < hi - lo)%Qc).
    { apply IvRankFacts.Qcminus_pos; [now apply (Hb _ Hhi) | congruence]. }
    split.
    + replace (lo - lo)%Qc with 0%Qc by ring. apply IvRankFacts.Qcdiv_0_l.
    + now apply IvRankFacts.Qcdiv_same.
  - intros He iv.
    rewrite (@IvRankFacts.calculate_iv_rank_flat iv hist_ivs Hlt).
    + apply Qc_is_canon. reflexivity.
    + rewrite Emin, Emax. congruence.
Qed.

Lemma iv_rank_extremes_witness :
  let hist_ivs := Q2Qc (40 # 1) :: Q2Qc (80 # 1) :: repeat (Q2Qc (55 # 1)) 28 in
  30 <= length hist_ivs
  /\ OptionSellingBacktest.calculate_iv_rank (Q2Qc (40 # 1)) hist_ivs = 0%Qc
  /\ OptionSellingBacktest.calculate_iv_rank (Q2Qc (80 # 1)) hist_ivs = 1%Qc.
Proof.
  intros hist_ivs.
  assert (Hlen : 30 <= length hist_ivs) by (cbn; lia).
  assert (Hlo : In (Q2Qc (40 # 1)) hist_ivs) by (left; reflexivity).
  assert (Hhi : In (Q2Qc (80 # 1)) hist_ivs) by (right; left; reflexivity).
  assert (Hb : forall x, In x hist_ivs ->
                 (Q2Qc (40 # 1) <= x)%Qc /\ (x <= Q2Qc (80 # 1))%Qc).
  { intros x [<- | [<- | Hx]].
    - split; intros H; discriminate H.
    - split; intros H; discriminate H.
    - apply repeat_spec in Hx. subst x. split; intros H; discriminate H. }
  assert (Hd : Q2Qc (40 # 1) <> Q2Qc (80 # 1)) by (intros H; discriminate H).
  split; [exact Hlen |].
  exact (proj1 (@iv_rank_extremes _ _ hist_ivs Hlen Hlo Hhi Hb) Hd).
Defined.

(** *** run_backtest *)

Module RunBacktestFacts.
Import OptionSelling OptionSellingBacktest SellLoopFacts.

Lemma fold_left_add_list_sum (l : list nat) (a : nat) :
  fold_left Nat.add l a = a + list_sum l.
Proof.
  revert a; induction l as [|x l IH]; intros a;
    cbn [fold_left list_sum fold_right].
  - lia.
  - rewrite IH. unfold list_sum. lia.
Qed.

Section Loop.
Context {F : Type} {A : Arith F} {R : Sqrt F}.
Variable history : string -> list F.

(** The values drawn by one call of [simulate_option_sell]. *)
Lemma simulate_option_sell_draws (closes : list F) (g g' : RandomState F)
    (s : Summary) :
  simulate_option_sell closes g = Some (s, g') ->
  g' = advance (length (filter (acted_on closes) (days closes))
                + summary_trades s) g.
Proof.
  intros Hs. apply simulate_option_sell_some in Hs.
  destruct Hs as [_ [st [Hst [Hn [_ [_ Hg]]]]]].
  destruct (days_loop closes (days closes) (start g))
    as [ts [Ht [_ [Hr _]]]].
  rewrite <- Hst in Ht, Hr. cbn [trades rng start app] in Ht, Hr.
  rewrite Hg, Hr, Hn, Ht. reflexivity.
Qed.

(** The loop over the tickers, from any list of results. *)
Lemma backtest_loop_spec (tickers : list string)
    (results : list (string * Summary)) (g : RandomState F) :
  let kept := filter (fun t => negb (length (history t) <? 100)) tickers in
  exists new,
    fst (backtest_loop history tickers results g) = results ++ new
    /\ map fst new = kept
    /\ Forall (fun r => exists g1 g2,
                 simulate_option_sell (history (fst r)) g1
                 = Some (snd r, g2)) new
    /\ snd (backtest_loop history tickers results g)
       = advance
           (list_sum
              (map (fun t => length (filter (acted_on (history t))
                                            (days (history t)))) kept)
            + list_sum (map (fun r => summary_trades (snd r)) new)) g.
Proof.
  revert results g; induction tickers as [|t rest IH]; intros results g kept.
  - exists []. cbn. rewrite app_nil_r, advance_0. now repeat split.
  - subst kept. cbn [backtest_loop filter].
    destruct (simulate_option_sell (history t) g) as [[s g'] |] eqn:Es.
    + assert (Hd := simulate_option_sell_draws _ _ Es).
      assert (Hk : (length (history t) <? 100) = false).
      { unfold simulate_option_sell in Es.
        destruct (length (history t) <? 100); [discriminate | reflexivity]. }
      rewrite Hk. cbn [negb].
      destruct (IH (results ++ [(t, s)]) g') as [new [H1 [H2 [H3 H4]]]].
      exists ((t, s) :: new). rewrite H1, H4, <- app_assoc.
      split; [reflexivity |]. split; [cbn [map fst]; now rewrite H2 |].
      split.
      * constructor; [| exact H3]. exists g, g'. exact Es.
      * rewrite Hd, advance_advance. f_equal.
        unfold list_sum. cbn [map fold_right snd]. lia.
    + assert (Hk : (length (history t) <? 100) = true).
      { unfold simulate_option_sell in Es.
        destruct (length (history t) <? 100); [reflexivity | discriminate]. }
      rewrite Hk. cbn [negb]. apply IH.
Qed.
End Loop.

(** The summary in exact arithmetic. *)
Lemma py_sum_from (l : list Qc) (a : Qc) :
  fold_left Qcplus l a = (a + total l)%Qc.
Proof.
  revert a; induction l as [|x l IH]; intros a.
  - change (total []) with 0%Qc. cbn [fold_left]. ring.
  - cbn [fold_left]. rewrite IH, ExpectationFacts.total_cons. ring.
Qed.

Lemma py_sum_total (l : list Qc) : py_sum l = total l.
Proof.
  unfold py_sum. cbn [add lit exact_arith]. rewrite py_sum_from.
  change (Q2Qc 0) with 0%Qc. ring.
Qed.

Lemma Qcdiv_ge_lower (x c b : Qc) :
  (0 < c)%Qc -> (b * c <= x)%Qc -> (b <= x / c)%Qc.
Proof.
  intros Hc Hx. apply Qcmult_lt_0_le_reg_r with (z := c); [exact Hc |].
  replace (x / c * c)%Qc with x; [exact Hx |].
  field. intros H. rewrite H in Hc. discriminate Hc.
Qed.

Lemma total_ge (l : list Qc) (b : Qc) :
  (forall x, In x l -> (b <= x)%Qc) ->
  (b * Qc_of_nat (length l) <= total l)%Qc.
Proof.
  induction l as [|x l IH]; intros Hb.
  - change (total []) with 0%Qc. change (Qc_of_nat (length [])) with 0%Qc.
    rewrite Qcmult_0_r. apply Qcle_refl.
  - cbn [length]. rewrite ExpectationFacts.total_cons,
      ExpectationFacts.Qc_of_nat_S.
    assert (Hx : (b <= x)%Qc) by (apply Hb; now left).
    assert (Hl : (b * Qc_of_nat (length l) <= total l)%Qc)
      by (apply IH; intros y Hy; apply Hb; now right).
    qc_to_q. nra.
Qed.

Lemma mean_ge (l : list Qc) (b : Qc) :
  l <> [] -> (forall x, In x l -> (b <= x)%Qc) -> (b <= mean l)%Qc.
Proof.
  intros Hl Hb. unfold mean. destruct l as [|x l]; [congruence |].
  apply Qcdiv_ge_lower; [apply MainFacts.Qc_of_nat_pos |]. now apply total_ge.
Qed.

Lemma monthly_target (a : Qc) :
  (Q2Qc (5 # 1) <= a / Q2Qc (12 # 1))%Qc <-> (Q2Qc (60 # 1) <= a)%Qc.
Proof.
  assert (Ha : a = (a / Q2Qc (12 # 1) * Q2Qc (12 # 1))%Qc).
  { field. intros H; discriminate H. }
  generalize dependent (a / Q2Qc (12 # 1))%Qc. intros m ->.
  split; intros H; qc_to_q; lra.
Qed.

End RunBacktestFacts.

(** X16.  [run_backtest] returns one result for each ticker whose history
    has at least 100 closes, in the order of [TICKERS], each of them a
    result of [simulate_option_sell] on the history of its ticker; the
    tickers share the generator, from which the whole run takes one value
    for each day acted on over these tickers and one more for each trade
    reported. *)
Theorem run_backtest_results {F : Type} {A : Arith F} {R : Sqrt F}
    (history : string -> list F) (g : RandomState F) :
  let kept :=
    filter (fun t => negb (length (history t) <? 100))
           OptionSellingBacktest.TICKERS in
  let out := OptionSellingBacktest.run_backtest history g in
  map fst (fst out) = kept
  /\ Forall (fun r => exists g1 g2,
               OptionSelling.simulate_option_sell (history (fst r)) g1
               = Some (snd r, g2)) (fst out)
  /\ snd out
     = advance
         (list_sum
            (map (fun t =>
                    length (filter
                              (OptionSellingBacktest.acted_on (history t))
                              (OptionSelling.days (history t)))) kept)
          + list_sum
              (map (fun r => OptionSelling.summary_trades (snd r))
                   (fst out))) g.
Proof.
  intros kept out. subst kept out. unfold OptionSellingBacktest.run_backtest.
  destruct (RunBacktestFacts.backtest_loop_spec history
              OptionSellingBacktest.TICKERS [] g) as [new [H1 [H2 [H3 H4]]]].
  cbn [app] in H1. rewrite H1, H4. now repeat split.
Qed.

(** X17.  The summary of [run_backtest] in exact arithmetic: nothing is
    summarised exactly when there is no result; otherwise the best and the
    worst performer are results, no result has a return above the best or
    below the worst, the average return lies between the two, the total of
    the trades is the sum over the results, and the target is reported as
    achieved exactly when the average return is at least 60 percent. *)
Theorem summarise_report
    (results : list (string * OptionSelling.Summary (F:=Qc))) :
  match OptionSellingBacktest.summarise results with
  | None => results = []
  | Some rep =>
      In (OptionSellingBacktest.best rep) results
      /\ In (OptionSellingBacktest.worst rep) results
      /\ (forall r, In r results ->
            (OptionSellingBacktest.result_return
               (OptionSellingBacktest.worst rep)
             <= OptionSellingBacktest.result_return r)%Qc
            /\ (OptionSellingBacktest.result_return r
                <= OptionSellingBacktest.result_return
                     (OptionSellingBacktest.best rep))%Qc)
      /\ (OptionSellingBacktest.result_return
            (OptionSellingBacktest.worst rep)
          <= OptionSellingBacktest.average_return rep)%Qc
      /\ (OptionSellingBacktest.average_return rep
          <= OptionSellingBacktest.result_return
               (OptionSellingBacktest.best rep))%Qc
      /\ OptionSellingBacktest.total_trades rep
         = list_sum (map (fun r => OptionSelling.summary_trades (snd r))
                         results)
      /\ (OptionSellingBacktest.achieved rep = true
          <-> (Q2Qc (60 # 1) <= OptionSellingBacktest.average_return rep)%Qc)
  end.
Proof.
  unfold OptionSellingBacktest.summarise. cbn [ltb exact_arith].
  destruct (py_max_by Qc_ltb OptionSellingBacktest.result_return results)
    as [b |] eqn:Emax;
    [| destruct results; [reflexivity | discriminate Emax]].
  destruct (py_min_by Qc_ltb OptionSellingBacktest.result_return results)
    as [w |] eqn:Emin;
    [| destruct results; [reflexivity | discriminate Emin]].
  cbn [OptionSellingBacktest.best OptionSellingBacktest.worst
       OptionSellingBacktest.average_return
       OptionSellingBacktest.total_trades OptionSellingBacktest.achieved].
  assert (Hne : results <> []) by (intros ->; discriminate Emax).
  destruct (@MinMaxFacts.py_max_by_first _ _ Qc_ltb
              OptionSellingBacktest.result_return results b
              MinMaxFacts.Qc_lt_trans_b MinMaxFacts.Qc_le_lt_trans_b Emax)
    as [l1 [l2 [Hb [Hb1 Hb2]]]].
  destruct (@MinMaxFacts.py_min_by_first _ _ Qc_ltb
              OptionSellingBacktest.result_return
              MinMaxFacts.Qc_lt_trans_b MinMaxFacts.Qc_lt_le_trans_b
              results w Emin)
    as [k1 [k2 [Hw [Hw1 Hw2]]]].
  assert (Hbest : forall r, In r results ->
            (OptionSellingBacktest.result_return r
             <= OptionSellingBacktest.result_return b)%Qc).
  { intros r Hr. rewrite Hb in Hr. apply in_app_or in Hr.
    destruct Hr as [Hr | [<- | Hr]].
    - apply Qclt_le_weak, ExactFacts.Qc_ltb_spec. now apply Hb1.
    - apply Qcle_refl.
    - apply ExactFacts.Qc_ltb_false. now apply Hb2. }
  assert (Hworst : forall r, In r results ->
            (OptionSellingBacktest.result_return w
             <= OptionSellingBacktest.result_return r)%Qc).
  { intros r Hr. rewrite Hw in Hr. apply in_app_or in Hr.
    destruct Hr as [Hr | [<- | Hr]].
    - apply Qclt_le_weak, ExactFacts.Qc_ltb_spec. now apply Hw1.
    - apply Qcle_refl.
    - apply ExactFacts.Qc_ltb_false. now apply Hw2. }
  assert (Hmean :
    div (OptionSellingBacktest.py_sum
           (map OptionSellingBacktest.result_return results))
        (lit (Z.of_nat (length results) # 1))
    = mean (map OptionSellingBacktest.result_return results)).
  { unfold mean. rewrite RunBacktestFacts.py_sum_total, length_map.
    reflexivity. }
  rewrite Hmean.
  assert (Hmap : map OptionSellingBacktest.result_return results <> []).
  { destruct results; [congruence | discriminate]. }
  split; [rewrite Hb; apply in_elt |].
  split; [rewrite Hw; apply in_elt |].
  split; [intros r Hr; split; [now apply Hworst | now apply Hbest] |].
  split.
  { apply RunBacktestFacts.mean_ge; [exact Hmap |].
    intros x Hx. apply in_map_iff in Hx. destruct Hx as [r [<- Hr]].
    now apply Hworst. }
  split.
  { apply MainFacts.mean_le; [exact Hmap |].
    intros x Hx. apply in_map_iff in Hx. destruct Hx as [r [<- Hr]].
    now apply Hbest. }
  split.
  { rewrite RunBacktestFacts.fold_left_add_list_sum. reflexivity. }
  cbn [leb div lit exact_arith]. rewrite ExactFacts.Qc_leb_spec.
  apply RunBacktestFacts.monthly_target.
Qed.

(** X18.  When no other result has a return different from that of the
    first, as when a single ticker has enough history, the summary names
    the first result both as best and as worst performer. *)
Theorem best_and_worst_on_ties (r : string * OptionSelling.Summary (F:=Qc))
    (rest : list (string * OptionSelling.Summary (F:=Qc))) :
  (forall x, In x rest ->
     OptionSellingBacktest.result_return x
     = OptionSellingBacktest.result_return r) ->
  exists rep,
    OptionSellingBacktest.summarise (r :: rest) = Some rep
    /\ OptionSellingBacktest.best rep = r
    /\ OptionSellingBacktest.worst rep = r.
Proof.
  intros Htie.
  assert (Hirr : forall x, Qc_ltb x x = false).
  { intros x. apply ExactFacts.Qc_ltb_false. apply Qcle_refl. }
  assert (Hkeep : forall (f : Qc -> Qc -> bool),
            (forall x, f x x = false) ->
            fold_left (fun m y =>
                         if f (OptionSellingBacktest.result_return y)
                              (OptionSellingBacktest.result_return m)
                         then y else m) rest r = r).
  { intros f Hf. clear Hirr. induction rest as [|y l IH]; [reflexivity |].
    cbn [fold_left]. rewrite (Htie y (or_introl eq_refl)), Hf.
    apply IH. intros x Hx. apply Htie. now right. }
  unfold OptionSellingBacktest.summarise. cbn [ltb exact_arith].
  cbn [py_max_by py_min_by].
  rewrite (Hkeep Qc_ltb Hirr).
  rewrite (Hkeep (fun a b => Qc_ltb b a) Hirr).
  eexists. split; [reflexivity |]. split; reflexivity.
Qed.

Lemma best_and_worst_on_ties_witness :
  let s := {| OptionSelling.summary_trades := 0;
              OptionSelling.summary_capital := Q2Qc (50000 # 1);
              OptionSelling.total_return := Q2Qc 0;
              OptionSelling.trades_data := [] |} in
  let r := ("AMZU"%string, s) in
  let rest := [("NVDL"%string, s)] in
  (forall x, In x rest ->
     OptionSellingBacktest.result_return x
     = OptionSellingBacktest.result_return r)
  /\ exists rep,
       OptionSellingBacktest.summarise (r :: rest) = Some rep
       /\ OptionSellingBacktest.best rep = r
       /\ OptionSellingBacktest.worst rep = r.
Proof.
  intros s r rest.
  assert (Htie : forall x, In x rest ->
            OptionSellingBacktest.result_return x
            = OptionSellingBacktest.result_return r).
  { intros x [<- | []]. reflexivity. }
  split; [exact Htie |].
  exact (@best_and_worst_on_ties r rest Htie).
Defined.

(** *** get_options_chain *)

Module ChainFacts.
Import OptionSelling OptionSellingBacktest.

Lemma Z_lt_trans_b (a b c : Z) :
  (a <? b)%Z = true -> (b <? c)%Z = true -> (a <? c)%Z = true.
Proof.
  rewrite !Z.ltb_lt. lia.
Qed.

Lemma Z_lt_le_trans_b (a b c : Z) :
  (a <? b)%Z = true -> (c <? b)%Z = false -> (a <? c)%Z = true.
Proof.
  rewrite !Z.ltb_lt, Z.ltb_ge. lia.
Qed.

(** The expiration chosen is the first of those with the smallest key. *)
Lemma closest_expiration_first (now : Z) (expirations : list Z) (e : Z) :
  closest_expiration now expirations = Some e ->
  exists l1 l2,
    expirations = l1 ++ e :: l2
    /\ (forall y, In y l1 ->
          (expiration_key now e < expiration_key now y)%Z)
    /\ (forall y, In y l2 ->
          (expiration_key now e <= expiration_key now y)%Z).
Proof.
  intros H. unfold closest_expiration in H.
  destruct (@MinMaxFacts.py_min_by_first _ _ Z.ltb (expiration_key now)
              Z_lt_trans_b Z_lt_le_trans_b expirations e H)
    as [l1 [l2 [Hl [H1 H2]]]].
  exists l1, l2. split; [exact Hl |]. split.
  - intros y Hy. apply Z.ltb_lt. now apply H1.
  - intros y Hy. apply Z.ltb_ge. now apply H2.
Qed.

(** The key counts days from the day after the target's date, except when
    the target is a midnight. *)
Lemma expiration_key_days (now expiration : Z) :
  (0 < target_date now mod day_us)%Z ->
  expiration_key now expiration
  = Z.abs (expiration - target_date now / day_us - 1)%Z.
Proof.
  intros Hr. unfold expiration_key, timedelta_days. f_equal.
  assert (Hd : (0 < day_us)%Z) by reflexivity.
  assert (Hm := Z.mod_pos_bound (target_date now) day_us Hd).
  assert (He := Z.div_mod (target_date now) day_us
                  ltac:(intros H; discriminate H)).
  symmetry.
  apply Z.div_unique with (r := (day_us - target_date now mod day_us)%Z).
  - left. lia.
  - set (q := (target_date now / day_us)%Z) in *.
    set (m := (target_date now mod day_us)%Z) in *.
    rewrite He at 1. ring.
Qed.

End ChainFacts.

(** X19.  [get_options_chain] returns either [(None, None)] or the calls
    and the puts of one listed expiration, whose key (the whole days between
    its midnight and the target date, in absolute value) is smaller than
    that of every expiration listed before it and not larger than that of
    any listed after it. *)
Theorem get_options_chain_cases {C P : Type} (options : option (list Z))
    (option_chain : Z -> option (C * P)) (now : Z) :
  let out := OptionSellingBacktest.get_options_chain options option_chain now in
  out = (None, None)
  \/ exists l1 e l2 calls puts,
       options = Some (l1 ++ e :: l2)
       /\ (forall y, In y l1 ->
             (OptionSellingBacktest.expiration_key now e
              < OptionSellingBacktest.expiration_key now y)%Z)
       /\ (forall y, In y l2 ->
             (OptionSellingBacktest.expiration_key now e
              <= OptionSellingBacktest.expiration_key now y)%Z)
       /\ option_chain e = Some (calls, puts)
       /\ out = (Some calls, Some puts).
Proof.
  intros out. subst out. unfold OptionSellingBacktest.get_options_chain.
  destruct options as [expirations |]; [| now left].
  destruct (OptionSellingBacktest.closest_expiration now expirations)
    as [e |] eqn:Ec; [| now left].
  destruct (option_chain e) as [[calls puts] |] eqn:Eo; [| now left].
  right.
  destruct (ChainFacts.closest_expiration_first now expirations Ec)
    as [l1 [l2 [Hl [H1 H2]]]].
  exists l1, e, l2, calls, puts. rewrite Hl. now repeat split.
Qed.

(** X20.  When the target date (now plus 30 days) is not a midnight, the
    expiration of the day after the target's date has key 0 and any other
    has a larger key, so that it is the one chosen whenever it is listed,
    also when the target's own date is listed. *)
Theorem closest_expiration_is_day_after (now : Z) (expirations : list Z) :
  let target_day :=
    (OptionSellingBacktest.target_date now / OptionSellingBacktest.day_us)%Z in
  (0 < OptionSellingBacktest.target_date now
       mod OptionSellingBacktest.day_us)%Z ->
  In (target_day + 1)%Z expirations ->
  OptionSellingBacktest.closest_expiration now expirations
  = Some (target_day + 1)%Z.
Proof.
  intros target_day Hr Hin.
  destruct (OptionSellingBacktest.closest_expiration now expirations)
    as [e |] eqn:Ec.
  - destruct (ChainFacts.closest_expiration_first now expirations Ec)
      as [l1 [l2 [Hl [H1 H2]]]].
    assert (Hk : forall y, In y expirations ->
              (OptionSellingBacktest.expiration_key now e
               <= OptionSellingBacktest.expiration_key now y)%Z).
    { intros y Hy. rewrite Hl in Hy. apply in_app_or in Hy.
      destruct Hy as [Hy | [<- | Hy]].
      - apply Z.lt_le_incl. now apply H1.
      - apply Z.le_refl.
      - now apply H2. }
    specialize (Hk _ Hin).
    rewrite !(ChainFacts.expiration_key_days now _ Hr) in Hk.
    fold target_day in Hk. f_equal. lia.
  - unfold OptionSellingBacktest.closest_expiration in Ec.
    destruct expirations; [destruct Hin | discriminate Ec].
Qed.

Lemma closest_expiration_is_day_after_witness :
  let now := 3600000000%Z in
  let expirations := [23%Z; 30%Z; 31%Z; 37%Z] in
  (0 < OptionSellingBacktest.target_date now
       mod OptionSellingBacktest.day_us)%Z
  /\ In 31%Z expirations
  /\ OptionSellingBacktest.closest_expiration now expirations = Some 31%Z.
Proof.
  intros now expirations.
  assert (Hr : (0 < OptionSellingBacktest.target_date now
                     mod OptionSellingBacktest.day_us)%Z) by reflexivity.
  assert (Hin : In 31%Z expirations) by (right; right; left; reflexivity).
  split; [exact Hr |]. split; [exact Hin |].
  exact (@closest_expiration_is_day_after now expirations Hr Hin).
Defined.
